(** * Non-adiabatic couplings from overlaps of contracted Gaussians

    A shallow embedding of [nac/integrals/nonAdiabaticCoupling.py]:
    the lookup of a basis function by its global index, the construction
    of the overlap matrix between two geometries, the projection on the
    molecular orbitals and the three-point formula for the coupling.

    Python exceptions are values of [PyError] carried by [result];
    NumPy arrays are shaped lists; the scalars are a class [Scalar], read
    over the reals for exact arithmetic. *)

From Stdlib Require Import Reals ZArith List Ascii String Lia Lra.
From stdpp Require Import gmap strings list.

Set Default Proof Using "Type".

(** ** Exceptions *)

Inductive PyError : Set :=
| KeyError
| IndexError
| UnboundLocalError
| ValueError
| ZeroDivisionError.

Inductive result (A : Type) : Type :=
| Ok (a : A)
| Raise (e : PyError).

Arguments Ok {A} a.
Arguments Raise {A} e.

Global Instance result_ret : MRet result := fun A a => Ok a.

Global Instance result_bind : MBind result := fun A B f m =>
  match m with
  | Ok a => f a
  | Raise e => Raise e
  end.

Global Instance result_fmap : FMap result := fun A B f m =>
  match m with
  | Ok a => Ok (f a)
  | Raise e => Raise e
  end.

Definition is_ok {A} (m : result A) : bool :=
  match m with Ok _ => true | Raise _ => false end.

(** [for x in l: ys.append(f x)], stopping at the first exception. *)
Fixpoint traverse {A B} (f : A -> result B) (l : list A) : result (list B) :=
  match l with
  | [] => Ok []
  | x :: l' => y ← f x; ys ← traverse f l'; Ok (y :: ys)
  end.

(** ** Python containers *)

(** [d[k]] on a dict: [KeyError] when the key is absent. *)
Definition dict_get {V} (d : gmap string V) (k : string) : result V :=
  match d !! k with
  | Some v => Ok v
  | None => Raise KeyError
  end.

(** [l[i]] on a list with a Python integer: negative indices count from
    the end, anything outside [-len, len) raises [IndexError]. *)
Definition py_index {A} (l : list A) (i : Z) : result A :=
  let n := Z.of_nat (length l) in
  let j := if (i <? 0)%Z then (n + i)%Z else i in
  if ((0 <=? j) && (j <? n))%Z
  then match l !! Z.to_nat j with
       | Some x => Ok x
       | None => Raise IndexError
       end
  else Raise IndexError.

(** ** Data model *)

Section Data.
Context {F : Type}.

(** A position: the three Cartesian components. *)
Inductive Vec3 : Type := V3 (x y z : F).

(** [AtomXYZ = namedtuple("AtomXYZ", ("symbol", "xyz"))]. *)
Record AtomXYZ : Type := mkAtom { symbol : string; xyz : Vec3 }.

(** [CGF = namedtuple("CGF", ("primitives", "orbType"))]; the primitives
    are the pair (contraction coefficients, exponents), as
    [apply_contraction] unpacks them. *)
Record CGF : Type := mkCGF { primitives : list F * list F; orbType : string }.

(** [coordinates_to_numpy] rebuilds the atom with its position as an
    array: on the model the same atom. *)
Definition coordinates_to_numpy (atom : AtomXYZ) : AtomXYZ :=
  mkAtom (symbol atom) (xyz atom).

(** ** The basis indexer: [lookup_cgf] *)

(** The [for s, xyz in atoms] loop of [lookup_cgf], from the running
    total [acc]. [Some (xyz, index)] when the loop leaves by [break],
    [None] when it runs to the end of the atoms. *)
Fixpoint lookup_loop (dictCGFs : gmap string (list CGF)) (i : Z)
    (atoms : list AtomXYZ) (acc : Z) : result (option (Vec3 * Z)) :=
  match atoms with
  | [] => Ok None
  | a :: rest =>
      cgfs ← dict_get dictCGFs (symbol a);
      let length := Z.of_nat (length cgfs) in
      let acc := (acc + length)%Z in
      let n := ((acc - 1) / i)%Z in
      if negb (n =? 0)%Z
      then Ok (Some (xyz a, (length - (acc - i))%Z))
      else lookup_loop dictCGFs i rest acc
  end.

Definition lookup_cgf (atoms : list AtomXYZ)
    (dictCGFs : gmap string (list CGF)) (i : Z) : result (Vec3 * CGF) :=
  if (i =? 0)%Z then
    match atoms with
    | [] => Raise IndexError
    | a0 :: _ =>
        cgfs ← dict_get dictCGFs (symbol a0);
        g ← py_index cgfs 0;
        Ok (xyz a0, g)
    end
  else
    r ← lookup_loop dictCGFs i atoms 0;
    match r, atoms with
    | Some (xyz, index), a0 :: _ =>
        cgfs ← dict_get dictCGFs (symbol a0);
        g ← py_index cgfs index;
        Ok (xyz, g)
    | _, _ => Raise UnboundLocalError
    end.

(** Number of basis functions of a geometry, as
    [sum(cgfs_per_atoms[at[0]] for at in mol0)]. *)
Fixpoint count_cgfs (dictCGFs : gmap string (list CGF))
    (atoms : list AtomXYZ) : result nat :=
  match atoms with
  | [] => Ok 0
  | a :: rest =>
      n ← dict_get (length <$> dictCGFs) (symbol a);
      m ← count_cgfs dictCGFs rest;
      Ok (n + m)
  end.

End Data.

Arguments Vec3 F : clear implicits.
Arguments AtomXYZ F : clear implicits.
Arguments CGF F : clear implicits.

(** ** Scalars

    What the code asks of its floating-point numbers. [fdiv] is NumPy's
    division of [float64] values, which never raises; [py_is_zero] is the
    test behind Python's own [ZeroDivisionError]; [math_sqrt] is
    [math.sqrt], which raises [ValueError] outside its domain. *)

Class Scalar (F : Type) : Type := {
  of_Z : Z -> F;
  fadd : F -> F -> F;
  fsub : F -> F -> F;
  fmul : F -> F -> F;
  fdiv : F -> F -> F;
  fneg : F -> F;
  fexp : F -> F;
  fpi : F;
  math_sqrt : F -> result F;
  py_is_zero : F -> bool
}.

(** Exact arithmetic: the real numbers. With positive exponents, as the
    data model has them, no divisor of [sab_unfolded] is zero. The real
    numbers have no infinity and no sign on zero: where the code divides
    by a zero, [fdiv] (which gives zero, as [Rdiv] does) is not what the
    code computes, and the properties that go through such a division
    are stated for divisors that are not zero. *)
Global Instance R_scalar : Scalar R := {|
  of_Z := IZR;
  fadd := Rplus;
  fsub := Rminus;
  fmul := Rmult;
  fdiv := Rdiv;
  fneg := Ropp;
  fexp := exp;
  fpi := PI;
  math_sqrt := fun x => if Rlt_dec x 0 then Raise ValueError else Ok (sqrt x);
  py_is_zero := fun x => if Req_dec_T x 0 then true else false
|}.

(** ** NumPy arrays *)

Section Numpy.
Context {F : Type} `{Scalar F}.

(** A two-dimensional array: its shape and its rows. *)
Record Matrix : Type := mkMatrix {
  nrows : nat;
  ncols : nat;
  rows : list (list F)
}.

Definition entry (M : Matrix) (i j : nat) : F :=
  nth j (nth i (rows M) []) (of_Z 0).

(** The array of shape (r, c) whose entry (i, j) is [f i j]. *)
Definition build_matrix (r c : nat) (f : nat -> nat -> F) : Matrix :=
  mkMatrix r c (map (fun i => map (fun j => f i j) (seq 0 c)) (seq 0 r)).

(** [np.sum] and [np.prod] of a one-dimensional array. *)
Definition fsum (l : list F) : F := fold_right fadd (of_Z 0) l.
Definition fprod (l : list F) : F := fold_right fmul (of_Z 1) l.

Definition np_transpose (M : Matrix) : Matrix :=
  build_matrix (ncols M) (nrows M) (fun i j => entry M j i).

(** [np.dot] of two-dimensional arrays: [ValueError] unless the inner
    dimensions agree. *)
Definition np_dot (A B : Matrix) : result Matrix :=
  if (ncols A =? nrows B)%nat
  then Ok (build_matrix (nrows A) (ncols B) (fun i j =>
             fsum (map (fun k => fmul (entry A i k) (entry B k j))
                       (seq 0 (ncols A)))))
  else Raise ValueError.

(** Broadcasting of one dimension: equal extents, or one of them 1. *)
Definition broadcast_dim (a b : nat) : result nat :=
  if (a =? b)%nat then Ok a
  else if (a =? 1)%nat then Ok b
  else if (b =? 1)%nat then Ok a
  else Raise ValueError.

Definition bidx (extent i : nat) : nat :=
  if (extent =? 1)%nat then 0%nat else i.

(** An elementwise binary operation on two arrays, with broadcasting. *)
Definition np_binop (op : F -> F -> F) (A B : Matrix) : result Matrix :=
  r ← broadcast_dim (nrows A) (nrows B);
  c ← broadcast_dim (ncols A) (ncols B);
  Ok (build_matrix r c (fun i j =>
        op (entry A (bidx (nrows A) i) (bidx (ncols A) j))
           (entry B (bidx (nrows B) i) (bidx (ncols B) j)))).

Definition np_add := np_binop fadd.
Definition np_sub := np_binop fsub.

(** A scalar times an array. *)
Definition np_scale (c : F) (M : Matrix) : Matrix :=
  build_matrix (nrows M) (ncols M) (fun i j => fmul c (entry M i j)).

(** [np.stack] of one-dimensional arrays, as rows: [ValueError] on an
    empty list and on arrays of different lengths. *)
Definition np_stack (xss : list (list F)) : result Matrix :=
  match xss with
  | [] => Raise ValueError
  | r :: rest =>
      if forallb (fun r' => (length r' =? length r)%nat) rest
      then Ok (mkMatrix (length xss) (length r) xss)
      else Raise ValueError
  end.

(** [row[start : start + len(vs)] = vs] on an array: the slice is
    clipped to the array, a value of length one is broadcast, any other
    mismatch of lengths raises [ValueError]. *)
Definition slice_assign (row : list F) (start : nat) (vs : list F)
    : result (list F) :=
  let n := length row in
  let lo := Nat.min start n in
  let hi := Nat.min (start + length vs) n in
  let m := (hi - lo)%nat in
  if (m =? length vs)%nat then Ok (take lo row ++ vs ++ drop hi row)
  else match vs with
       | [v] => Ok (take lo row ++ replicate m v ++ drop hi row)
       | _ => Raise ValueError
       end.

(** Python's [x / y] on floats. *)
Definition py_div (x y : F) : result F :=
  if py_is_zero y then Raise ZeroDivisionError else Ok (fdiv x y).

(** Operations on positions. *)
Definition v3map (f : F -> F) (v : Vec3 F) : Vec3 F :=
  match v with V3 x y z => V3 (f x) (f y) (f z) end.

Definition v3map2 (f : F -> F -> F) (v w : Vec3 F) : Vec3 F :=
  match v, w with
  | V3 x y z, V3 x' y' z' => V3 (f x x') (f y y') (f z z')
  end.

Definition v3list (v : Vec3 F) : list F :=
  match v with V3 x y z => [x; y; z] end.

End Numpy.

Arguments Matrix F : clear implicits.

(** ** The overlap matrix builder *)

Section Overlap.
Context {F : Type} `{Scalar F}.

(** [calcOrbType_Components] of [nac.integrals.multipoleIntegrals]: the
    exponent of an orbital label along one axis. Its module is not part
    of the sources at hand: a parameter. *)
Variable calcOrbType_Components : string -> nat -> Z.

(** [obaraSaikaMultipole] of the extension module [multipoleObaraSaika],
    the one-dimensional primitive integral: a parameter. *)
Variable obaraSaikaMultipole : F -> F -> F -> F -> F -> F -> F -> F -> F.

(** What [np.empty] finds in the cell of each index. *)
Variable uninit : nat -> F.

Definition np_empty (n : nat) : list F := map uninit (seq 0 n).

Definition orb_components (l : string) : Vec3 F :=
  V3 (of_Z (calcOrbType_Components l 0))
     (of_Z (calcOrbType_Components l 1))
     (of_Z (calcOrbType_Components l 2)).

Definition sab_unfolded (r1 r2 ls1 ls2 : Vec3 F) (c1 c2 e1 e2 : F)
    : result F :=
  cte ← math_sqrt (fdiv fpi (fadd e1 e2));
  let u := fdiv (fmul e1 e2) (fadd e1 e2) in
  let p := fdiv (of_Z 1) (fmul (of_Z 2) (fadd e1 e2)) in
  let rp := v3map (fun x => fdiv x (fadd e1 e2))
              (v3map2 fadd (v3map (fmul e1) r1) (v3map (fmul e2) r2)) in
  let rab := v3map2 fsub r1 r2 in
  let rpa := v3map2 fsub rp r1 in
  let rpb := v3map2 fsub rp r2 in
  let s00 := v3map (fun x => fmul cte (fexp (fmul (fneg u) (fmul x x)))) rab in
  let axis (k : nat) : F :=
    let get v := nth k (v3list v) (of_Z 0) in
    obaraSaikaMultipole p (get s00) (get rpa) (get rpb) (get rp)
                        (get ls1) (get ls2) (of_Z 0) in
  let prod := fprod (map axis (seq 0 3)) in
  Ok (fmul (fmul c1 c2) prod).

(** [np.apply_along_axis(f, 0, mtx)]: [f] on every column, in order;
    [ValueError] on an array without columns. *)
Definition apply_along_columns (f : list F -> result F) (mtx : Matrix F)
    : result (list F) :=
  if (ncols mtx =? 0)%nat then Raise ValueError
  else traverse (fun k => f (map (fun i => entry mtx i k) (seq 0 (nrows mtx))))
                (seq 0 (ncols mtx)).

Definition apply_contraction (xyz_0 xyz_1 : Vec3 F) (li lj : string)
    (ps_i ps_j : list F * list F) : result F :=
  let '(csi, esi) := ps_i in
  let '(csj, esj) := ps_j in
  mtx ← np_stack [csi; csj; esi; esj];
  let ls_i := orb_components li in
  let ls_j := orb_components lj in
  let fun_sab := sab_unfolded xyz_0 xyz_1 ls_i ls_j in
  vals ← apply_along_columns
           (fun xs => match xs with
                      | [c1; c2; e1; e2] => fun_sab c1 c2 e1 e2
                      | _ => Raise ValueError
                      end) mtx;
  Ok (fsum vals).

Definition calc_overlap_atom (xyz_0 : Vec3 F) (cgf_i : CGF F)
    (xyz_1 : Vec3 F) (cgfs_atom_j : list (CGF F)) : result (list F) :=
  let li := orbType cgf_i in
  let ps_i := primitives cgf_i in
  traverse (fun cgf_j =>
              let lj := orbType cgf_j in
              let ps_j := primitives cgf_j in
              apply_contraction xyz_0 xyz_1 li lj ps_i ps_j)
           cgfs_atom_j.

(** The [for s, xyz_1 in mol1] loop of [calc_overlap_row]. *)
Fixpoint overlap_row_loop (dictCGFs : gmap string (list (CGF F)))
    (xyz_0 : Vec3 F) (cgf_i : CGF F) (mol1 : list (AtomXYZ F))
    (row : list F) (acc : nat) : result (list F) :=
  match mol1 with
  | [] => Ok row
  | a :: rest =>
      cgfs_atom_j ← dict_get dictCGFs (symbol a);
      let nContracted := length cgfs_atom_j in
      vs ← calc_overlap_atom xyz_0 cgf_i (xyz a) cgfs_atom_j;
      row' ← slice_assign row acc vs;
      overlap_row_loop dictCGFs xyz_0 cgf_i rest row' (acc + nContracted)
  end.

Definition calc_overlap_row (dictCGFs : gmap string (list (CGF F)))
    (mol1 : list (AtomXYZ F)) (dim : nat) (xyz_0 : Vec3 F) (cgf_i : CGF F)
    : result (list F) :=
  overlap_row_loop dictCGFs xyz_0 cgf_i mol1 (np_empty dim) 0.

Definition apply_nested {A B C} (f : A -> B -> result C)
    (g : Z -> result (A * B)) (i : Z) : result C :=
  p ← g i; f (fst p) (snd p).

(** [range(dim)]. *)
Definition range (dim : nat) : list Z := map Z.of_nat (seq 0 dim).

(** The pool has one worker and [map] keeps the order of the indices:
    the rows are computed one after the other. *)
Definition calcOverlapMtx (trans_mtx : option (Matrix F))
    (dictCGFs : gmap string (list (CGF F))) (dim : nat)
    (mol0 mol1 : list (AtomXYZ F)) : result (Matrix F) :=
  let fun_overlap := calc_overlap_row dictCGFs mol1 dim in
  let fun_lookup := lookup_cgf mol0 dictCGFs in
  xss ← traverse (apply_nested fun_overlap fun_lookup) (range dim);
  suv ← np_stack xss;
  match trans_mtx with
  | Some trans_mtx =>
      let transpose := np_transpose trans_mtx in
      t ← np_dot suv transpose;
      np_dot trans_mtx t
  | None => Ok suv
  end.

(** ** The projection on molecular orbitals *)

Definition calculate_overlap (suv css0 css1 : Matrix F) : result (Matrix F) :=
  let css0T := np_transpose css0 in
  t ← np_dot suv css1;
  np_dot css0T t.

(** ** The three-point coupling *)

Definition calculateCoupling3Points
    (geometries : list (AtomXYZ F) * list (AtomXYZ F) * list (AtomXYZ F))
    (coefficients : Matrix F * Matrix F * Matrix F)
    (dictCGFs : gmap string (list (CGF F))) (dt : F)
    (trans_mtx : option (Matrix F)) : result (Matrix F) :=
  let '(g0, g1, g2) := geometries in
  let mol0 := map coordinates_to_numpy g0 in
  let mol1 := map coordinates_to_numpy g1 in
  let mol2 := map coordinates_to_numpy g2 in
  let '(css0, css1, css2) := coefficients in
  dim ← count_cgfs dictCGFs mol0;
  suv_0 ← calcOverlapMtx trans_mtx dictCGFs dim mol0 mol1;
  let suv_0_t := np_transpose suv_0 in
  suv_1 ← calcOverlapMtx trans_mtx dictCGFs dim mol1 mol2;
  let suv_1_t := np_transpose suv_1 in
  mtx_sji_t0 ← calculate_overlap suv_0 css0 css1;
  mtx_sji_t1 ← calculate_overlap suv_1 css1 css2;
  mtx_sij_t0 ← calculate_overlap suv_0_t css1 css0;
  mtx_sij_t1 ← calculate_overlap suv_1_t css2 css1;
  cte ← py_div (of_Z 1) (fmul (of_Z 4) dt);
  d1 ← np_sub mtx_sji_t1 mtx_sij_t1;
  d0 ← np_sub mtx_sij_t0 mtx_sji_t0;
  s ← np_add (np_scale (of_Z 3) d1) d0;
  Ok (np_scale cte s).

End Overlap.

(** ** The layout of the global index

    Every atom owns a block of consecutive global indices, as many as
    its symbol has basis functions, in the order of the atoms. *)

Section Layout.
Context {F : Type}.

Definition block_size (d : gmap string (list (CGF F))) (a : AtomXYZ F) : Z :=
  match d !! symbol a with
  | Some cgfs => Z.of_nat (length cgfs)
  | None => 0
  end.

Fixpoint blocks_total (d : gmap string (list (CGF F)))
    (atoms : list (AtomXYZ F)) : Z :=
  match atoms with
  | [] => 0
  | a :: rest => block_size d a + blocks_total d rest
  end.

End Layout.

(** ** Matrices as the specification writes them

    Entries indexed by row and column, finite sums, products and
    transposes: the vocabulary of [C0ᵗ · S · C1] and of the three-point
    formula, independent of the arrays of the code. *)

Section MatrixSpec.

Definition mat : Type := nat -> nat -> R.

(** The sum of [f k] for [k] below [n]. *)
Fixpoint big_sum (n : nat) (f : nat -> R) : R :=
  match n with
  | O => 0%R
  | S n' => (big_sum n' f + f n')%R
  end.

Definition mat_mul (n : nat) (A B : mat) : mat :=
  fun i j => big_sum n (fun k => A i k * B k j)%R.

Definition mat_T (A : mat) : mat := fun i j => A j i.

(** [C0ᵗ · S · C1], with [S] of dimension [n]. *)
Definition project_spec (n : nat) (S C0 C1 : mat) : mat :=
  mat_mul n (mat_mul n (mat_T C0) S) C1.

(** [T · S · Tᵗ], with [S] of dimension [n]. *)
Definition transform_spec (n : nat) (T S : mat) : mat :=
  mat_mul n (mat_mul n T S) (mat_T T).

(** The three-point finite difference of the projected overlaps. *)
Definition coupling_spec (n : nat) (S0 S1 C0 C1 C2 : mat) (dt : R) : mat :=
  fun i j =>
    let Sji_t0 := project_spec n S0 C0 C1 in
    let Sij_t0 := project_spec n (mat_T S0) C1 C0 in
    let Sji_t1 := project_spec n S1 C1 C2 in
    let Sij_t1 := project_spec n (mat_T S1) C2 C1 in
    ((3 * (Sji_t1 i j - Sij_t1 i j) + (Sij_t0 i j - Sji_t0 i j))
     / (4 * dt))%R.

End MatrixSpec.

Definition has_shape {F} (M : Matrix F) (r c : nat) : Prop :=
  nrows M = r /\ ncols M = c.

(** The array of [np.zeros((r, c))]. *)
Definition zeros {F} `{Scalar F} (r c : nat) : Matrix F :=
  build_matrix r c (fun _ _ => of_Z 0).

(** The dimension of the matrix [calcOverlapMtx] returns. *)
Definition overlap_dim {F} (trans_mtx : option (Matrix F)) (dim : nat) : nat :=
  match trans_mtx with
  | Some T => nrows T
  | None => dim
  end.

(** ** Arrays as objects

    [calculate_overlap] once more, on array objects in a store: an array
    is a handle on a buffer, [np.transpose] returns a view that shares the
    buffer of its argument, [np.dot] allocates the buffer of its result. *)

Module Store.
Section Store.
Context {F : Type} `{Scalar F}.

Record ndarray : Type := mkView { buffer : nat; transposed : bool }.

Abbreviation heap := (gmap nat (Matrix F)).

(** The contents of an array object. *)
Definition read (h : heap) (a : ndarray) : Matrix F :=
  let M := default (mkMatrix 0 0 []) (h !! buffer a) in
  if transposed a then np_transpose M else M.

Definition np_transpose_st (a : ndarray) (h : heap) : result (ndarray * heap) :=
  Ok (mkView (buffer a) (negb (transposed a)), h).

Definition np_dot_st (a b : ndarray) (h : heap) : result (ndarray * heap) :=
  M ← np_dot (read h a) (read h b);
  let l := fresh (dom h) in
  Ok (mkView l false, <[l := M]> h).

Definition calculate_overlap_st (suv css0 css1 : ndarray) (h : heap)
    : result (ndarray * heap) :=
  r0 ← np_transpose_st css0 h;
  let '(css0T, h0) := r0 in
  r1 ← np_dot_st suv css1 h0;
  let '(t, h1) := r1 in
  np_dot_st css0T t h1.

End Store.
End Store.

(** ** Floating-point special values

    The [float64] values with the infinities and NaN of IEEE 754. Finite
    results are exact (no rounding, no overflow) and zero has no sign: a
    division by zero takes the sign of the numerator, as the code does
    with a positive zero. What the code does with a negative zero is not
    covered; the properties over these values are about what becomes of
    values that are not finite, and none of them rests on a division by
    zero. *)

Inductive xreal : Type :=
| Fin (r : R)
| PInf
| NInf
| NaN.

Definition is_finite (x : xreal) : bool :=
  match x with Fin _ => true | _ => false end.

Definition Rsign (r : R) : comparison :=
  if Rlt_dec 0 r then Gt else if Rlt_dec r 0 then Lt else Eq.

Definition xneg (x : xreal) : xreal :=
  match x with
  | Fin r => Fin (- r)
  | PInf => NInf
  | NInf => PInf
  | NaN => NaN
  end.

Definition xadd (x y : xreal) : xreal :=
  match x, y with
  | NaN, _ => NaN
  | _, NaN => NaN
  | Fin a, Fin b => Fin (a + b)
  | PInf, NInf => NaN
  | NInf, PInf => NaN
  | PInf, _ => PInf
  | _, PInf => PInf
  | NInf, _ => NInf
  | _, NInf => NInf
  end.

Definition xsub (x y : xreal) : xreal := xadd x (xneg y).

(** An infinity times a finite number. *)
Definition xinf_scaled (positive : bool) (r : R) : xreal :=
  match Rsign r with
  | Gt => if positive then PInf else NInf
  | Lt => if positive then NInf else PInf
  | Eq => NaN
  end.

Definition xmul (x y : xreal) : xreal :=
  match x, y with
  | NaN, _ => NaN
  | _, NaN => NaN
  | Fin a, Fin b => Fin (a * b)
  | Fin a, PInf => xinf_scaled true a
  | Fin a, NInf => xinf_scaled false a
  | PInf, Fin b => xinf_scaled true b
  | NInf, Fin b => xinf_scaled false b
  | PInf, PInf => PInf
  | NInf, NInf => PInf
  | PInf, NInf => NInf
  | NInf, PInf => NInf
  end.

Definition xdiv (x y : xreal) : xreal :=
  match x, y with
  | NaN, _ => NaN
  | _, NaN => NaN
  | Fin a, Fin b =>
      if Req_dec_T b 0 then xinf_scaled true a else Fin (a / b)
  | Fin _, _ => Fin 0
  | PInf, Fin b => if Rlt_dec b 0 then NInf else PInf
  | NInf, Fin b => if Rlt_dec b 0 then PInf else NInf
  | _, _ => NaN
  end.

Definition xexp (x : xreal) : xreal :=
  match x with
  | Fin a => Fin (exp a)
  | PInf => PInf
  | NInf => Fin 0
  | NaN => NaN
  end.

Definition xsqrt (x : xreal) : result xreal :=
  match x with
  | Fin a => if Rlt_dec a 0 then Raise ValueError else Ok (Fin (sqrt a))
  | PInf => Ok PInf
  | NInf => Raise ValueError
  | NaN => Ok NaN
  end.

Global Instance xreal_scalar : Scalar xreal := {|
  of_Z := fun z => Fin (IZR z);
  fadd := xadd;
  fsub := xsub;
  fmul := xmul;
  fdiv := xdiv;
  fneg := xneg;
  fexp := xexp;
  fpi := Fin PI;
  math_sqrt := xsqrt;
  py_is_zero := fun x => match x with
                         | Fin a => if Req_dec_T a 0 then true else false
                         | _ => false
                         end
|}.

(** ** Outcomes

    Two runs have the same outcome when they raise the same exception or
    return arrays of the same shape. *)

Definition result_rel {A} (rel : A -> A -> Prop) (x y : result A) : Prop :=
  match x, y with
  | Ok a, Ok b => rel a b
  | Raise e, Raise e' => e = e'
  | _, _ => False
  end.

(** The relation that holds of any two values. *)
Definition any_value {A} (_ _ : A) : Prop := True.

Definition same_length {A} (l l' : list A) : Prop := length l = length l'.

Definition same_shape {F} (M M' : Matrix F) : Prop :=
  nrows M = nrows M' /\ ncols M = ncols M' /\
  Forall2 same_length (rows M) (rows M').

Definition same_outcome {F} (x y : result (Matrix F)) : Prop :=
  result_rel same_shape x y.

(** ** A system of one atom

    One cadmium atom at the origin with one s-type function of one
    primitive, two molecular orbitals, and stand-ins for the parameters of
    the builder: every orbital component zero, a primitive integral equal
    to one, cells of [np.empty] holding zero. *)

Definition cd_atom : AtomXYZ R := mkAtom "Cd" (V3 0 0 0)%R.

Definition cd_basis : gmap string (list (CGF R)) :=
  {["Cd" := [mkCGF ([1%R], [1%R]) "S"]]}.

Definition s_components : string -> nat -> Z := fun _ _ => 0%Z.

Definition unit_integral : R -> R -> R -> R -> R -> R -> R -> R -> R :=
  fun _ _ _ _ _ _ _ _ => 1%R.

Definition zero_cells : nat -> R := fun _ => 0%R.

Definition two_orbitals : Matrix R := mkMatrix 1 2 [[1; 2]]%R.

(** The overlap matrix of the atom with itself under [unit_integral]. *)
Definition cd_overlap : Matrix R :=
  mkMatrix 1 1 [[1 * 1 * (1 * (1 * (1 * 1))) + 0]]%R.

Definition cd_frames : list (AtomXYZ R) * list (AtomXYZ R) * list (AtomXYZ R) :=
  ([cd_atom], [cd_atom], [cd_atom]).

Definition cd_orbitals : Matrix R * Matrix R * Matrix R :=
  (two_orbitals, two_orbitals, two_orbitals).

(** A transformation from one Cartesian function to two functions. *)
Definition cd_transform : Matrix R := mkMatrix 2 1 [[1]; [2]]%R.

(** A store with the overlap matrix and the coefficients of the atom. *)
Definition cd_heap : gmap nat (Matrix R) :=
  <[0%nat := cd_overlap]> (<[1%nat := two_orbitals]> ∅).

Definition cd_suv : Store.ndarray := Store.mkView 0 false.
Definition cd_css : Store.ndarray := Store.mkView 1 false.

(** Two cadmium atoms over a basis of two functions. *)
Definition cd_pair_functions : list (CGF R) :=
  [mkCGF ([1], [2]) "S"; mkCGF ([1], [3]) "Px"]%R.

Definition cd_pair_basis : gmap string (list (CGF R)) :=
  {["Cd" := cd_pair_functions]}.

Definition cd_pair : list (AtomXYZ R) :=
  [mkAtom "Cd" (V3 0 0 0); mkAtom "Cd" (V3 1 0 0)]%R.

(** A hydrogen atom with one function, a carbon atom with two. *)
Definition h_function : CGF R := mkCGF ([1], [1])%R "S".
Definition c_function_s : CGF R := mkCGF ([1], [2])%R "S".
Definition c_function_px : CGF R := mkCGF ([1], [2])%R "Px".

Definition hc_basis : gmap string (list (CGF R)) :=
  {["H" := [h_function]; "C" := [c_function_s; c_function_px]]}.

Definition hc_atoms : list (AtomXYZ R) :=
  [mkAtom "H" (V3 0 0 0); mkAtom "C" (V3 1 0 0)]%R.

(** The one-atom system over the floating-point values, with a primitive
    integral that is not a number. *)
Definition cd_atom_x : AtomXYZ xreal :=
  mkAtom "Cd" (V3 (Fin 0) (Fin 0) (Fin 0)).

Definition cd_basis_x : gmap string (list (CGF xreal)) :=
  {["Cd" := [mkCGF ([Fin 1], [Fin 1]) "S"]]}.

Definition nan_integral
    : xreal -> xreal -> xreal -> xreal -> xreal -> xreal -> xreal -> xreal
      -> xreal :=
  fun _ _ _ _ _ _ _ _ => NaN.

Definition zero_cells_x : nat -> xreal := fun _ => Fin 0.

(** ** Basis functions that contract with each other

    Every function of the list has [m] coefficients and [m] positive
    exponents. *)

Definition contractible (m : nat) (L : list (CGF R)) : Prop :=
  Forall (fun g => length (fst (primitives g)) = m /\
                   length (snd (primitives g)) = m /\
                   Forall (fun e => 0 < e)%R (snd (primitives g))) L.

(** ** Initialisation: the points that need a guess

    [guesses_to_compute] of [nac/workflows/initialization.py]. Strings are
    sequences of bytes; [lower] acts on the ASCII letters, and a byte
    outside ASCII is left as it is, which no substring of the two keywords
    contains. The calls of the logger are left out. *)

Definition py_lower_ascii (c : ascii) : ascii :=
  let n := nat_of_ascii c in
  if ((65 <=? n) && (n <=? 90))%nat then ascii_of_nat (n + 32) else c.

Fixpoint py_lower (s : string) : string :=
  match s with
  | EmptyString => EmptyString
  | String c s' => String (py_lower_ascii c) (py_lower s')
  end.

(** [sub in s] on two strings: [sub] occurs in [s]. *)
Fixpoint py_in (sub s : string) : bool :=
  String.prefix sub s
  || match s with
     | EmptyString => false
     | String _ s' => py_in sub s'
     end.

Definition guesses_to_compute (calculate_guesses : option string)
    (enumerate_from len_geometries : Z) : result (list Z) :=
  match calculate_guesses with
  | None => Ok []
  | Some g =>
      if py_in (py_lower g) "first" then Ok [enumerate_from]
      else if py_in (py_lower g) "all"
      then Ok (map (fun i => (enumerate_from + i)%Z)
                   (range (Z.to_nat len_geometries)))
      else Raise UnboundLocalError
  end.

(** ** More systems

    The atoms of the hydrogen and carbon geometry, an atom whose symbol no
    basis has, a basis where hydrogen has no function, cells of
    [np.empty] that hold their index, and coefficient matrices for the
    systems above. *)

Definition h_atom : AtomXYZ R := mkAtom "H" (V3 0 0 0)%R.
Definition c_atom : AtomXYZ R := mkAtom "C" (V3 1 0 0)%R.
Definition xe_atom : AtomXYZ R := mkAtom "Xe" (V3 2 0 0)%R.

Definition empty_h_basis : gmap string (list (CGF R)) := {["H" := []]}.





Definition one_orbital : Matrix R := mkMatrix 1 1 [[1]]%R.

Definition four_by_two : Matrix R :=
  mkMatrix 4 2 [[1; 0]; [0; 1]; [1; 1]; [0; 0]]%R.

Definition nan_overlap : Matrix xreal := mkMatrix 1 1 [[NaN]].

(** ** A system that moves

    Two cadmium atoms with one function each, at three frames where both
    atoms move; a primitive integral that depends on the centre of the
    product of the two primitives, so that the overlap of two frames is
    not symmetric; three different coefficient matrices. *)

Definition centre_integral : R -> R -> R -> R -> R -> R -> R -> R -> R :=
  fun _ _ _ _ rp _ _ _ => (rp + 1)%R.

Definition mv_frame_0 : list (AtomXYZ R) :=
  [mkAtom "Cd" (V3 0 0 0); mkAtom "Cd" (V3 2 0 0)]%R.
Definition mv_frame_1 : list (AtomXYZ R) :=
  [mkAtom "Cd" (V3 2 0 0); mkAtom "Cd" (V3 6 0 0)]%R.
Definition mv_frame_2 : list (AtomXYZ R) :=
  [mkAtom "Cd" (V3 4 0 0); mkAtom "Cd" (V3 10 0 0)]%R.

(** The overlaps of the first two and of the last two frames. *)
Definition mv_overlap_0 : Matrix R := mkMatrix 2 2 [[2; 4]; [3; 5]]%R.
Definition mv_overlap_1 : Matrix R := mkMatrix 2 2 [[4; 7]; [6; 9]]%R.

Definition mv_css0 : Matrix R := mkMatrix 2 2 [[1; 0]; [0; 1]]%R.
Definition mv_css1 : Matrix R := mkMatrix 2 2 [[1; 1]; [0; 1]]%R.
Definition mv_css2 : Matrix R := mkMatrix 2 2 [[1; 0]; [1; 1]]%R.

(** The coupling of the three frames, with a time step of 1. *)
Definition mv_coupling : Matrix R := mkMatrix 2 2 [[0; -15]; [15; 0]]%R.

(** Cells of [np.empty] that are nowhere zero. *)
Definition other_cells : nat -> R := fun k => (INR k + 1)%R.

(** The row of the hydrogen function against the hydrogen and carbon
    atoms, under [centre_integral]. *)
Definition hc_row : list R := [1; 5 / 3; 5 / 3]%R.

(** * Properties *)

(** ** The error monad *)

Lemma bind_Ok_inv {A B} (m : result A) (k : A -> result B) (b : B) :
  (x ← m; k x) = Ok b -> exists a, m = Ok a /\ k a = Ok b.
Proof. destruct m as [a|e]; simpl; [eauto | discriminate]. Qed.

Lemma dict_get_singleton {V} (k : string) (v : V) :
  dict_get ({[k := v]} : gmap string V) k = Ok v.
Proof. unfold dict_get. by rewrite lookup_singleton_eq. Qed.

Lemma traverse_length {A B} (f : A -> result B) (l : list A) (ys : list B) :
  traverse f l = Ok ys -> length ys = length l.
Proof.
  revert ys. induction l as [|x l IH]; simpl; intros ys Hys.
  - by inversion Hys.
  - apply bind_Ok_inv in Hys as (y & _ & Hys).
    apply bind_Ok_inv in Hys as (ys' & Hys' & Hys).
    inversion Hys; subst. simpl. f_equal. by apply IH.
Qed.

Lemma traverse_lookup {A B} (f : A -> result B) (l : list A) (ys : list B)
    (k : nat) (x : A) :
  traverse f l = Ok ys -> l !! k = Some x ->
  exists y, ys !! k = Some y /\ f x = Ok y.
Proof.
  revert ys k. induction l as [|x' l IH]; simpl; intros ys k Hys Hk.
  - by destruct k.
  - apply bind_Ok_inv in Hys as (y & Hy & Hys).
    apply bind_Ok_inv in Hys as (ys' & Hys' & Hys).
    inversion Hys; subst. destruct k as [|k]; simpl in *.
    + inversion Hk; subst. eauto.
    + eauto.
Qed.

(** ** The basis indexer *)

Section LookupFacts.
Context {F : Type}.
Implicit Types (d : gmap string (list (CGF F))) (atoms : list (AtomXYZ F)).

Lemma block_size_nonneg d a : (0 <= block_size d a)%Z.
Proof. unfold block_size. destruct (d !! symbol a); lia. Qed.

Lemma blocks_total_nonneg d atoms : (0 <= blocks_total d atoms)%Z.
Proof.
  induction atoms as [|a rest IH]; simpl; [lia|].
  pose proof (block_size_nonneg d a). lia.
Qed.

Lemma blocks_total_app d pre post :
  blocks_total d (pre ++ post) = (blocks_total d pre + blocks_total d post)%Z.
Proof. induction pre as [|a pre IH]; simpl; lia. Qed.

Lemma py_index_in_range {A} (l : list A) (i : Z) (x : A) :
  (0 <= i)%Z -> l !! Z.to_nat i = Some x -> py_index l i = Ok x.
Proof.
  intros Hi Hx. pose proof (lookup_lt_Some _ _ _ Hx) as Hlen.
  unfold py_index.
  destruct (Z.ltb_spec i 0); [lia|].
  destruct (Z.leb_spec 0 i); [|lia].
  destruct (Z.ltb_spec i (Z.of_nat (length l))); [|lia].
  simpl. by rewrite Hx.
Qed.

Lemma py_index_beyond {A} (l : list A) (i : Z) :
  (Z.of_nat (length l) <= i)%Z -> py_index l i = Raise IndexError.
Proof.
  intros Hi. unfold py_index.
  destruct (Z.ltb_spec i 0); [lia|].
  destruct (Z.ltb_spec i (Z.of_nat (length l))); [lia|].
  by rewrite andb_false_r.
Qed.

(** The dimension the estimator computes is the total of the blocks. *)
Lemma count_cgfs_blocks_total d atoms (dim : nat) :
  count_cgfs d atoms = Ok dim -> blocks_total d atoms = Z.of_nat dim.
Proof.
  revert dim. induction atoms as [|a rest IH]; simpl; intros dim Hdim.
  - by inversion Hdim.
  - apply bind_Ok_inv in Hdim as (n & Hn & Hdim).
    apply bind_Ok_inv in Hdim as (m & Hm & Hdim).
    inversion Hdim; subst. rewrite (IH m Hm).
    unfold dict_get in Hn. rewrite lookup_fmap in Hn.
    unfold block_size. destruct (d !! symbol a); simpl in Hn; [|discriminate].
    inversion Hn. lia.
Qed.

(** With a positive divisor the test [(acc - 1) // i != 0] of the loop
    asks whether the running total has passed [i]. *)
Lemma break_test (acc i : Z) :
  (0 < i)%Z -> (1 <= acc)%Z ->
  negb ((acc - 1) / i =? 0)%Z = (i <? acc)%Z.
Proof.
  intros Hi Hacc.
  destruct (Z.ltb_spec i acc) as [Hlt|Hge].
  - apply negb_true_iff, Z.eqb_neq. intros Hq.
    apply Z.div_small_iff in Hq; lia.
  - apply negb_false_iff, Z.eqb_eq. apply Z.div_small. lia.
Qed.

(** The loop stops at the atom whose block holds [i], with the offset
    of [i] in that block. *)
Lemma lookup_loop_owner d i atoms acc :
  (0 < i)%Z -> (0 <= acc <= i)%Z ->
  Forall (fun a => is_Some (d !! symbol a)) atoms ->
  (0 < acc \/ exists a rest, atoms = a :: rest /\ 0 < block_size d a)%Z ->
  (i < acc + blocks_total d atoms)%Z ->
  exists pre a post,
    atoms = pre ++ a :: post /\
    (acc + blocks_total d pre <= i
       < acc + blocks_total d pre + block_size d a)%Z /\
    lookup_loop d i atoms acc
      = Ok (Some (xyz a, (i - (acc + blocks_total d pre))%Z)).
Proof.
  intros Hi. revert acc.
  induction atoms as [|a rest IH]; intros acc Hacc Hall Hfirst Hlt.
  - simpl in Hlt. lia.
  - inversion Hall as [|? ? [cgfs Hcgfs] Hrest]; subst.
    assert (Hbs : block_size d a = Z.of_nat (length cgfs))
      by (unfold block_size; rewrite Hcgfs; reflexivity).
    assert (Hpos : (1 <= acc + Z.of_nat (length cgfs))%Z).
    { destruct Hfirst as [?|(a' & rest' & Heq & Hb)]; [lia|].
      inversion Heq; subst. lia. }
    simpl. unfold dict_get. rewrite Hcgfs. simpl.
    rewrite break_test by lia.
    destruct (Z.ltb_spec i (acc + Z.of_nat (length cgfs))) as [Hin|Hout].
    + exists [], a, rest. simpl. rewrite Hbs.
      split; [reflexivity|]. split; [lia|].
      do 3 f_equal. lia.
    + simpl in Hlt.
      destruct (IH (acc + Z.of_nat (length cgfs))%Z)
        as (pre & b & post & Heq & Hrange & Hres);
        [lia | assumption | left; lia | lia |].
      exists (a :: pre), b, post. simpl. rewrite Hbs.
      split; [by rewrite Heq|]. split; [lia|].
      rewrite Hres. do 3 f_equal. lia.
Qed.

(** What [lookup_cgf] returns on any geometry whose first atom has a
    basis function: the position of the atom that owns [i], and the
    entry, at the offset of [i] in the owner's block, of the list of the
    FIRST atom's symbol. *)
Lemma lookup_cgf_first_symbol d a0 rest cgfs0 i :
  Forall (fun a => is_Some (d !! symbol a)) (a0 :: rest) ->
  d !! symbol a0 = Some cgfs0 -> cgfs0 <> [] ->
  (0 <= i < blocks_total d (a0 :: rest))%Z ->
  exists pre a post,
    a0 :: rest = pre ++ a :: post /\
    (blocks_total d pre <= i < blocks_total d pre + block_size d a)%Z /\
    lookup_cgf (a0 :: rest) d i
      = (g ← py_index cgfs0 (i - blocks_total d pre); Ok (xyz a, g)).
Proof.
  intros Hall H0 Hne Hi.
  assert (Hb0 : (0 < block_size d a0)%Z).
  { unfold block_size. rewrite H0. destruct cgfs0; [done | simpl; lia]. }
  unfold lookup_cgf. destruct (Z.eqb_spec i 0) as [->|Hnz].
  - exists [], a0, rest. simpl. split; [reflexivity|]. split; [lia|].
    unfold dict_get. rewrite H0. reflexivity.
  - destruct (lookup_loop_owner d i (a0 :: rest) 0)
      as (pre & a & post & Heq & Hrange & Hres);
      [lia | lia | assumption | right; eauto | lia |].
    exists pre, a, post. split; [assumption|]. split; [lia|].
    rewrite Hres. simpl. unfold dict_get. rewrite H0. simpl.
    by rewrite Z.add_0_l.
Qed.

End LookupFacts.

Section LookupClaims.
Context {F : Type}.
Implicit Types (d : gmap string (list (CGF F))) (atoms : list (AtomXYZ F)).

Lemma blocks_total_single_symbol d atoms s L :
  Forall (fun a => symbol a = s) atoms -> d !! s = Some L ->
  Forall (fun a => is_Some (d !! symbol a)) atoms /\
  Forall (fun a => block_size d a = Z.of_nat (length L)) atoms.
Proof.
  intros Hall Hs. split; (eapply Forall_impl; [exact Hall|]);
    intros a Ha; simpl in Ha; unfold block_size; rewrite Ha, Hs; eauto.
Qed.

(** C10. When all the atoms carry one symbol, [lookup_cgf] answers
    every global index [i] below the dimension with the position of the
    atom whose block contains [i] and the basis function at the offset
    of [i] within that block. *)
Theorem lookup_cgf_single_symbol d atoms s L i :
  Forall (fun a => symbol a = s) atoms ->
  d !! s = Some L ->
  (0 <= i < blocks_total d atoms)%Z ->
  exists pre a post g,
    atoms = pre ++ a :: post /\
    (blocks_total d pre <= i < blocks_total d pre + block_size d a)%Z /\
    d !! symbol a = Some L /\
    L !! Z.to_nat (i - blocks_total d pre) = Some g /\
    lookup_cgf atoms d i = Ok (xyz a, g).
Proof.
  intros Hall Hs Hi.
  destruct (blocks_total_single_symbol d atoms s L Hall Hs) as [Hdom Hsize].
  destruct atoms as [|a0 rest]; [simpl in Hi; lia|].
  assert (Hs0 : d !! symbol a0 = Some L).
  { inversion Hall; subst. assumption. }
  assert (HL : L <> []).
  { intros ->. assert (blocks_total d (a0 :: rest) = 0%Z); [|lia].
    clear -Hsize. induction Hsize as [|a l Ha _ IH]; simpl in *; lia. }
  destruct (lookup_cgf_first_symbol d a0 rest L i Hdom Hs0 HL Hi)
    as (pre & a & post & Heq & Hrange & Hres).
  assert (Ha : symbol a = s).
  { rewrite Heq in Hall. apply Forall_app in Hall as [_ Hall].
    by inversion Hall. }
  assert (Hba : block_size d a = Z.of_nat (length L)).
  { unfold block_size. by rewrite Ha, Hs. }
  destruct (lookup_lt_is_Some_2 L (Z.to_nat (i - blocks_total d pre)))
    as [g Hg]; [lia|].
  exists pre, a, post, g. repeat split; try assumption; try lia.
  - by rewrite Ha.
  - rewrite Hres. rewrite (py_index_in_range L _ g); [reflexivity|lia|done].
Qed.

End LookupClaims.

Lemma lookup_cgf_single_symbol_witness :
  exists pre a post g,
    cd_pair = pre ++ a :: post /\
    (blocks_total cd_pair_basis pre <= 3
       < blocks_total cd_pair_basis pre + block_size cd_pair_basis a)%Z /\
    cd_pair_basis !! symbol a = Some cd_pair_functions /\
    cd_pair_functions !! Z.to_nat (3 - blocks_total cd_pair_basis pre) = Some g /\
    lookup_cgf cd_pair cd_pair_basis 3 = Ok (xyz a, g).
Proof.
  apply (lookup_cgf_single_symbol cd_pair_basis cd_pair "Cd"
           cd_pair_functions 3).
  - repeat constructor.
  - reflexivity.
  - vm_compute. split; [discriminate | reflexivity].
Defined.

(** C1. On a geometry with two symbols the lookup takes the basis
    function from the list of the first atom's symbol: with H (one
    function) followed by C (two functions), index 1 is the first function
    of the C atom, and [lookup_cgf] answers with the C position and the
    function of H; index 2, the second function of C, raises
    [IndexError]. *)
Theorem lookup_cgf_mixed_symbols :
  blocks_total hc_basis [mkAtom "H" (V3 0 0 0)%R] = 1%Z /\
  hc_basis !! "C" = Some [c_function_s; c_function_px] /\
  lookup_cgf hc_atoms hc_basis 1 = Ok (V3 1 0 0, h_function)%R /\
  h_function <> c_function_s /\
  lookup_cgf hc_atoms hc_basis 2 = Raise IndexError.
Proof.
  split; [reflexivity|]. split; [reflexivity|].
  split; [reflexivity|]. split; [|reflexivity].
  intros Heq. injection Heq as Heq. lra.
Qed.

(** ** The contraction of two basis functions *)

(** C2. [apply_contraction] stacks the coefficients and exponents of the
    two functions and walks the columns: it pairs the primitives by
    position. Two functions with different numbers of primitives raise
    [ValueError]; two functions of two primitives each give the sum of two
    terms, (1st, 1st) and (2nd, 2nd), and not of the four pairs. *)
Theorem apply_contraction_pairs_by_position {F} `{Scalar F}
    (comps : string -> nat -> Z) (osm : F -> F -> F -> F -> F -> F -> F -> F -> F)
    (x0 x1 : Vec3 F) (li lj : string) :
  (forall c e c1 c2 e1 e2,
      apply_contraction comps osm x0 x1 li lj ([c], [e]) ([c1; c2], [e1; e2])
      = Raise ValueError) /\
  (forall a1 a2 p1 p2 b1 b2 q1 q2,
      apply_contraction comps osm x0 x1 li lj
        ([a1; a2], [p1; p2]) ([b1; b2], [q1; q2])
      = (v1 ← sab_unfolded osm x0 x1 (orb_components comps li)
                (orb_components comps lj) a1 b1 p1 q1;
         v2 ← sab_unfolded osm x0 x1 (orb_components comps li)
                (orb_components comps lj) a2 b2 p2 q2;
         Ok (fadd v1 (fadd v2 (of_Z 0))))).
Proof.
  split; intros.
  - reflexivity.
  - unfold apply_contraction, apply_along_columns. simpl.
    unfold entry. simpl.
    destruct (sab_unfolded osm x0 x1 _ _ a1 b1 p1 q1); [|reflexivity].
    simpl.
    destruct (sab_unfolded osm x0 x1 _ _ a2 b2 p2 q2); reflexivity.
Qed.

(** ** Arrays *)

Section ArrayFacts.
Context {F : Type} `{Scalar F}.

Lemma nth_map_seq (f : nat -> F) (n i : nat) (x : F) :
  (i < n)%nat -> nth i (map f (seq 0 n)) x = f i.
Proof.
  intros Hi. rewrite (nth_indep _ x (f 0%nat)) by (by rewrite length_map, length_seq).
  rewrite map_nth. by rewrite seq_nth.
Qed.

Lemma entry_build_matrix (r c : nat) (f : nat -> nat -> F) (i j : nat) :
  (i < r)%nat -> (j < c)%nat -> entry (build_matrix r c f) i j = f i j.
Proof.
  intros Hi Hj. unfold entry, build_matrix. simpl.
  rewrite (nth_indep _ [] (map (fun j => f 0%nat j) (seq 0 c)))
    by (by rewrite length_map, length_seq).
  rewrite (map_nth (fun i => map (fun j => f i j) (seq 0 c))).
  rewrite seq_nth by assumption. simpl.
  by apply nth_map_seq.
Qed.

Lemma build_matrix_ext (r c : nat) (f g : nat -> nat -> F) :
  (forall i j, (i < r)%nat -> (j < c)%nat -> f i j = g i j) ->
  build_matrix r c f = build_matrix r c g.
Proof.
  intros Hfg. unfold build_matrix. f_equal.
  apply map_ext_in. intros i Hi%in_seq.
  apply map_ext_in. intros j Hj%in_seq.
  apply Hfg; lia.
Qed.

Lemma build_matrix_shape (r c : nat) (f : nat -> nat -> F) :
  has_shape (build_matrix r c f) r c.
Proof. by split. Qed.

Lemma np_dot_Ok (A B : Matrix F) :
  ncols A = nrows B ->
  np_dot A B = Ok (build_matrix (nrows A) (ncols B) (fun i j =>
                 fsum (map (fun k => fmul (entry A i k) (entry B k j))
                           (seq 0 (ncols A))))).
Proof. intros Hs. unfold np_dot. by rewrite Hs, Nat.eqb_refl. Qed.

Lemma np_dot_inv (A B P : Matrix F) :
  np_dot A B = Ok P -> ncols A = nrows B /\ has_shape P (nrows A) (ncols B).
Proof.
  unfold np_dot. destruct (Nat.eqb_spec (ncols A) (nrows B)); [|discriminate].
  intros [= <-]. by split.
Qed.

Lemma bidx_in_range (extent i : nat) : (i < extent)%nat -> bidx extent i = i.
Proof. unfold bidx. destruct (Nat.eqb_spec extent 1); lia. Qed.

Lemma np_binop_same_shape (op : F -> F -> F) (A B : Matrix F) (r c : nat) :
  has_shape A r c -> has_shape B r c ->
  np_binop op A B
  = Ok (build_matrix r c (fun i j => op (entry A i j) (entry B i j))).
Proof.
  intros [HrA HcA] [HrB HcB]. unfold np_binop, broadcast_dim.
  rewrite HrA, HrB, HcA, HcB, !Nat.eqb_refl. simpl. f_equal.
  apply build_matrix_ext. intros i j Hi Hj.
  by rewrite !bidx_in_range.
Qed.

Lemma entry_np_transpose (M : Matrix F) (i j : nat) :
  (i < ncols M)%nat -> (j < nrows M)%nat ->
  entry (np_transpose M) i j = entry M j i.
Proof. intros. unfold np_transpose. by rewrite entry_build_matrix. Qed.

Lemma slice_assign_length (row vs row' : list F) (start : nat) :
  slice_assign row start vs = Ok row' -> length row' = length row.
Proof.
  unfold slice_assign.
  destruct (Nat.eqb_spec
              (Nat.min (start + length vs) (length row)
               - Nat.min start (length row)) (length vs)) as [Hm|Hm].
  - intros [= <-]. rewrite !length_app, length_take, length_drop. lia.
  - destruct vs as [|v [|? ?]]; try discriminate.
    intros [= <-].
    rewrite !length_app, length_take, length_replicate, length_drop. lia.
Qed.

Lemma np_stack_Ok (xss : list (list F)) (M : Matrix F) :
  np_stack xss = Ok M ->
  rows M = xss /\ nrows M = length xss /\
  Forall (fun r => length r = ncols M) xss.
Proof.
  unfold np_stack. destruct xss as [|r rest]; [discriminate|].
  destruct (forallb _ rest) eqn:Hall; [|discriminate].
  intros [= <-]. simpl. repeat split.
  constructor; [reflexivity|].
  apply Forall_forall. intros r' Hr'.
  rewrite forallb_forall in Hall. apply Nat.eqb_eq, Hall.
  by apply list_elem_of_In.
Qed.

End ArrayFacts.

(** ** Finite sums of reals *)

Section Sums.
Local Open Scope R_scope.

Lemma fsum_app (l l' : list R) : fsum (l ++ l') = fsum l + fsum l'.
Proof.
  unfold fsum. induction l as [|x l IH]; simpl in *.
  - ring.
  - rewrite IH. ring.
Qed.

Lemma fsum_big_sum (n : nat) (f : nat -> R) :
  fsum (map f (seq 0 n)) = big_sum n f.
Proof.
  induction n as [|n IH]; [reflexivity|].
  rewrite seq_S, map_app, fsum_app, IH. simpl. unfold fsum. simpl. ring.
Qed.

Lemma big_sum_ext (n : nat) (f g : nat -> R) :
  (forall k, (k < n)%nat -> f k = g k) -> big_sum n f = big_sum n g.
Proof.
  induction n as [|n IH]; intros Hfg; [reflexivity|].
  simpl. rewrite IH, Hfg by (intros; try apply Hfg; lia). reflexivity.
Qed.

Lemma big_sum_scal_l (n : nat) (a : R) (f : nat -> R) :
  a * big_sum n f = big_sum n (fun k => a * f k).
Proof. induction n as [|n IH]; simpl; [ring|]. rewrite <- IH. ring. Qed.

Lemma big_sum_scal_r (n : nat) (a : R) (f : nat -> R) :
  big_sum n f * a = big_sum n (fun k => f k * a).
Proof. induction n as [|n IH]; simpl; [ring|]. rewrite <- IH. ring. Qed.

Lemma big_sum_plus (n : nat) (f g : nat -> R) :
  big_sum n (fun k => f k + g k) = big_sum n f + big_sum n g.
Proof. induction n as [|n IH]; simpl; [ring|]. rewrite IH. ring. Qed.

Lemma big_sum_zero (n : nat) : big_sum n (fun _ => 0) = 0.
Proof. induction n as [|n IH]; simpl; [reflexivity|]. rewrite IH. ring. Qed.

(** Two finite sums commute. *)
Lemma big_sum_exchange (n m : nat) (f : nat -> nat -> R) :
  big_sum n (fun k => big_sum m (fun l => f k l))
  = big_sum m (fun l => big_sum n (fun k => f k l)).
Proof.
  induction n as [|n IH]; simpl.
  - by rewrite big_sum_zero.
  - by rewrite IH, <- big_sum_plus.
Qed.

Lemma mat_mul_assoc (n m : nat) (A B C : mat) (i j : nat) :
  mat_mul n (mat_mul m A B) C i j = mat_mul m A (mat_mul n B C) i j.
Proof.
  unfold mat_mul.
  erewrite big_sum_ext by (intros; apply big_sum_scal_r).
  rewrite big_sum_exchange.
  apply big_sum_ext. intros l _.
  rewrite big_sum_scal_l. apply big_sum_ext. intros k _. ring.
Qed.

(** Projecting the transposed overlap with the coefficients swapped
    transposes the projection. *)
Lemma project_spec_transpose (n : nat) (S C0 C1 : mat) (i j : nat) :
  project_spec n (mat_T S) C1 C0 i j = project_spec n S C0 C1 j i.
Proof.
  unfold project_spec. rewrite !mat_mul_assoc. unfold mat_mul, mat_T.
  erewrite big_sum_ext by (intros; apply big_sum_scal_l).
  rewrite big_sum_exchange. symmetry.
  erewrite big_sum_ext by (intros; apply big_sum_scal_l).
  apply big_sum_ext. intros k _. apply big_sum_ext. intros l _. simpl. ring.
Qed.

End Sums.

(** ** The projection on molecular orbitals *)

Section ProjectionFacts.
Local Open Scope R_scope.

Lemma calculate_overlap_inv (suv css0 css1 P : Matrix R) :
  calculate_overlap suv css0 css1 = Ok P ->
  ncols suv = nrows css1 /\ nrows css0 = nrows suv /\
  has_shape P (ncols css0) (ncols css1).
Proof.
  unfold calculate_overlap. intros HP.
  apply bind_Ok_inv in HP as (t & Ht & HP).
  apply np_dot_inv in Ht as [Hin [Htr Htc]].
  apply np_dot_inv in HP as [Hin' [HPr HPc]].
  simpl in *. repeat split; congruence.
Qed.

(** A product [A · (S · C1)] where [A] has the entries of [C0ᵗ]. *)
Lemma dot_dot_project (A suv css0 css1 : Matrix R) (m n0 n1 : nat) :
  has_shape A n0 m ->
  (forall i k, (i < n0)%nat -> (k < m)%nat -> entry A i k = entry css0 k i) ->
  has_shape suv m m -> has_shape css1 m n1 ->
  (t ← np_dot suv css1; np_dot A t)
  = Ok (build_matrix n0 n1
          (project_spec m (entry suv) (entry css0) (entry css1))).
Proof.
  intros [HAr HAc] HA [HSr HSc] [H1r H1c].
  rewrite np_dot_Ok by congruence. simpl.
  rewrite np_dot_Ok by (simpl; congruence). simpl.
  rewrite HSr, HSc, HAr, HAc, H1c. f_equal.
  apply build_matrix_ext. intros i j Hi Hj.
  unfold project_spec. rewrite mat_mul_assoc.
  rewrite fsum_big_sum. unfold mat_mul at 1.
  apply big_sum_ext. intros k Hk.
  rewrite HA by lia.
  rewrite entry_build_matrix by lia.
  rewrite fsum_big_sum. reflexivity.
Qed.

(** The array [calculate_overlap] returns holds [C0ᵗ · S · C1]. *)
Lemma calculate_overlap_project (suv css0 css1 : Matrix R) (m n0 n1 : nat) :
  has_shape suv m m -> has_shape css0 m n0 -> has_shape css1 m n1 ->
  calculate_overlap suv css0 css1
  = Ok (build_matrix n0 n1
          (project_spec m (entry suv) (entry css0) (entry css1))).
Proof.
  intros HS [H0r H0c] H1. unfold calculate_overlap.
  apply dot_dot_project; try assumption.
  - split; simpl; congruence.
  - intros i k Hi Hk. apply entry_np_transpose; lia.
Qed.

Lemma read_insert_fresh (h : gmap nat (Matrix R)) (a : Store.ndarray) (M : Matrix R) :
  is_Some (h !! Store.buffer a) ->
  Store.read (<[fresh (dom h) := M]> h) a = Store.read h a.
Proof.
  intros Ha. unfold Store.read. rewrite lookup_insert_ne; [reflexivity|].
  intros Heq. apply elem_of_dom in Ha. rewrite <- Heq in Ha.
  by apply is_fresh in Ha.
Qed.

Lemma read_flip (h : gmap nat (Matrix R)) (a : Store.ndarray) (r c : nat) :
  has_shape (Store.read h a) r c ->
  has_shape (Store.read h (Store.mkView (Store.buffer a)
                             (negb (Store.transposed a)))) c r /\
  forall i k, (i < c)%nat -> (k < r)%nat ->
    entry (Store.read h (Store.mkView (Store.buffer a)
                           (negb (Store.transposed a)))) i k
    = entry (Store.read h a) k i.
Proof.
  unfold Store.read. simpl. destruct (Store.transposed a); simpl.
  - intros [Hr Hc]. simpl in *. split; [by split|].
    intros i k Hi Hk. rewrite entry_np_transpose by lia. reflexivity.
  - intros [Hr Hc]. split; [by split|].
    intros i k Hi Hk. rewrite entry_np_transpose by lia. reflexivity.
Qed.

(** C5. On array objects in a store, [calculate_overlap] returns a new
    array that holds the product [C0ᵗ · S · C1], the value of the
    function on the contents of its arguments, and it leaves every array
    of the store, its three arguments among them, as it found it. *)
Theorem calculate_overlap_product_pure (h : gmap nat (Matrix R))
    (suv css0 css1 : Store.ndarray) (m n0 n1 : nat) :
  is_Some (h !! Store.buffer suv) ->
  is_Some (h !! Store.buffer css0) ->
  is_Some (h !! Store.buffer css1) ->
  has_shape (Store.read h suv) m m ->
  has_shape (Store.read h css0) m n0 ->
  has_shape (Store.read h css1) m n1 ->
  exists out h',
    Store.calculate_overlap_st suv css0 css1 h = Ok (out, h') /\
    Store.read h' out
    = build_matrix n0 n1
        (project_spec m (entry (Store.read h suv))
           (entry (Store.read h css0)) (entry (Store.read h css1))) /\
    calculate_overlap (Store.read h suv) (Store.read h css0)
      (Store.read h css1) = Ok (Store.read h' out) /\
    (forall l M, h !! l = Some M -> h' !! l = Some M) /\
    Store.read h' suv = Store.read h suv /\
    Store.read h' css0 = Store.read h css0 /\
    Store.read h' css1 = Store.read h css1.
Proof.
  intros Ha Ha0 Ha1 HS H0 H1.
  pose proof (calculate_overlap_project _ _ _ m n0 n1 HS H0 H1) as Hpure.
  pose proof (dot_dot_project
                (Store.read h (Store.mkView (Store.buffer css0)
                                 (negb (Store.transposed css0))))
                (Store.read h suv) (Store.read h css0) (Store.read h css1)
                m n0 n1) as Hdd.
  destruct (read_flip h css0 m n0 H0) as [HAs HAe].
  specialize (Hdd HAs HAe HS H1).
  apply bind_Ok_inv in Hdd as (t & Ht & HP).
  unfold Store.calculate_overlap_st, Store.np_transpose_st, Store.np_dot_st.
  simpl. rewrite Ht. simpl.
  set (h1 := <[fresh (dom h) := t]> h).
  assert (Hframe1 : forall a, is_Some (h !! Store.buffer a) ->
                              Store.read h1 a = Store.read h a)
    by (intros a Hb; by apply read_insert_fresh).
  assert (Hnew1 : Store.read h1 (Store.mkView (fresh (dom h)) false) = t).
  { unfold Store.read, h1. simpl. by rewrite lookup_insert_eq. }
  rewrite Hnew1, (Hframe1 (Store.mkView _ _)) by exact Ha0.
  rewrite HP. simpl.
  set (P := build_matrix _ _ _) in *.
  set (h2 := <[fresh (dom h1) := P]> h1).
  assert (Hframe2 : forall a, is_Some (h !! Store.buffer a) ->
                              Store.read h2 a = Store.read h a).
  { intros a Hb. unfold h2. rewrite read_insert_fresh.
    - by apply Hframe1.
    - unfold h1. destruct Hb as [M HM].
      destruct (decide (fresh (dom h) = Store.buffer a)) as [<-|Hne].
      + rewrite lookup_insert_eq. eauto.
      + rewrite lookup_insert_ne by assumption. eauto. }
  exists (Store.mkView (fresh (dom h1)) false), h2.
  assert (Hout : Store.read h2 (Store.mkView (fresh (dom h1)) false) = P).
  { unfold Store.read, h2. simpl. by rewrite lookup_insert_eq. }
  split; [reflexivity|]. split; [assumption|].
  split; [by rewrite Hout|].
  split; [|by rewrite !Hframe2].
  intros l M HM. unfold h2, h1.
  assert (Hl : l ∈ dom h) by (apply elem_of_dom; eauto).
  rewrite lookup_insert_ne.
  - rewrite lookup_insert_ne; [assumption|].
    intros Heq. rewrite <- Heq in Hl. by apply is_fresh in Hl.
  - intros Heq.
    assert (Hl1 : l ∈ dom h1) by (unfold h1; rewrite dom_insert_L; set_solver).
    rewrite <- Heq in Hl1. by apply is_fresh in Hl1.
Qed.

End ProjectionFacts.

(** ** The overlap matrix builder *)

Section BuilderFacts.
Context {F : Type} `{Scalar F}.
Variable comps : string -> nat -> Z.
Variable osm : F -> F -> F -> F -> F -> F -> F -> F -> F.
Variable uninit : nat -> F.

Lemma map_coordinates_to_numpy (g : list (AtomXYZ F)) :
  map coordinates_to_numpy g = g.
Proof.
  induction g as [|[s p] g IH]; simpl; [reflexivity|].
  by rewrite IH.
Qed.

Lemma overlap_row_loop_length d xyz_0 cgf_i mol1 row acc row' :
  overlap_row_loop comps osm d xyz_0 cgf_i mol1 row acc = Ok row' ->
  length row' = length row.
Proof.
  revert row acc. induction mol1 as [|a rest IH]; simpl; intros row acc Hrow.
  - by inversion Hrow.
  - apply bind_Ok_inv in Hrow as (cgfs & _ & Hrow).
    apply bind_Ok_inv in Hrow as (vs & _ & Hrow).
    apply bind_Ok_inv in Hrow as (row1 & Hassign & Hrow).
    apply IH in Hrow. apply slice_assign_length in Hassign. congruence.
Qed.

Lemma calc_overlap_row_length d mol1 dim xyz_0 cgf_i row :
  calc_overlap_row comps osm uninit d mol1 dim xyz_0 cgf_i = Ok row ->
  length row = dim.
Proof.
  unfold calc_overlap_row. intros Hrow%overlap_row_loop_length.
  unfold np_empty in Hrow. by rewrite Hrow, length_map, length_seq.
Qed.

Lemma slice_assign_fits (row vs : list F) (start : nat) :
  (start + length vs <= length row)%nat ->
  slice_assign row start vs
  = Ok (take start row ++ vs ++ drop (start + length vs) row).
Proof.
  intros Hfit. unfold slice_assign.
  rewrite !Nat.min_l by lia.
  replace (start + length vs - start)%nat with (length vs) by lia.
  by rewrite Nat.eqb_refl.
Qed.

(** When the blocks of the second geometry fill the row, the loop returns
    the blocks of the atoms one after the other: no cell of [np.empty] is
    left as it was found. *)
Lemma overlap_row_loop_concat d xyz_0 cgf_i mol1 row acc row' :
  (Z.of_nat acc + blocks_total d mol1 = Z.of_nat (length row))%Z ->
  overlap_row_loop comps osm d xyz_0 cgf_i mol1 row acc = Ok row' ->
  exists blocks,
    traverse (fun a => cgfs ← dict_get d (symbol a);
                       calc_overlap_atom comps osm xyz_0 cgf_i (xyz a) cgfs)
             mol1 = Ok blocks /\
    row' = take acc row ++ concat blocks.
Proof.
  revert row acc. induction mol1 as [|a rest IH]; simpl; intros row acc Hfill Hrow.
  - exists []. split; [reflexivity|]. inversion Hrow; subst. simpl.
    rewrite app_nil_r, take_ge; [reflexivity|lia].
  - apply bind_Ok_inv in Hrow as (cgfs & Hcgfs & Hrow).
    apply bind_Ok_inv in Hrow as (vs & Hvs & Hrow).
    apply bind_Ok_inv in Hrow as (row1 & Hassign & Hrow).
    pose proof (traverse_length _ _ _ Hvs) as Hlen.
    assert (Hbs : block_size d a = Z.of_nat (length cgfs)).
    { unfold block_size. unfold dict_get in Hcgfs.
      destruct (d !! symbol a); [|discriminate]. by inversion Hcgfs. }
    pose proof (blocks_total_nonneg d rest) as Hnn.
    rewrite slice_assign_fits in Hassign by lia.
    inversion Hassign as [Hrow1]. clear Hassign.
    apply IH in Hrow as (blocks & Hblocks & Hrow').
    + exists (vs :: blocks). rewrite Hcgfs. simpl. rewrite Hvs. simpl.
      rewrite Hblocks. simpl. split; [reflexivity|].
      rewrite Hrow', <- Hrow1. rewrite <- Hlen.
      rewrite app_assoc, take_app_length'; [by rewrite <- app_assoc|].
      rewrite length_app, length_take. lia.
    + rewrite <- Hrow1, !length_app, length_take, length_drop. lia.
Qed.

Lemma calc_overlap_row_concat d mol1 dim xyz_0 cgf_i row :
  blocks_total d mol1 = Z.of_nat dim ->
  calc_overlap_row comps osm uninit d mol1 dim xyz_0 cgf_i = Ok row ->
  exists blocks,
    traverse (fun a => cgfs ← dict_get d (symbol a);
                       calc_overlap_atom comps osm xyz_0 cgf_i (xyz a) cgfs)
             mol1 = Ok blocks /\
    row = concat blocks.
Proof.
  intros Hdim Hrow. unfold calc_overlap_row in Hrow.
  apply overlap_row_loop_concat in Hrow; [exact Hrow|].
  unfold np_empty. rewrite length_map, length_seq. lia.
Qed.

(** The builder returns a square array: of the dimension it was given,
    or of the number of rows of the transformation. *)
Lemma calcOverlapMtx_shape trans_mtx d dim mol0 mol1 S :
  calcOverlapMtx comps osm uninit trans_mtx d dim mol0 mol1 = Ok S ->
  has_shape S (overlap_dim trans_mtx dim) (overlap_dim trans_mtx dim).
Proof.
  unfold calcOverlapMtx. intros HS.
  apply bind_Ok_inv in HS as (xss & Hxss & HS).
  apply bind_Ok_inv in HS as (suv & Hsuv & HS).
  destruct trans_mtx as [T|]; simpl.
  - apply bind_Ok_inv in HS as (t & Ht & HS).
    apply np_dot_inv in Ht as [_ [_ Htc]].
    apply np_dot_inv in HS as [_ [HSr HSc]].
    split; [assumption|]. simpl in *. congruence.
  - inversion HS; subst S. clear HS.
    pose proof (traverse_length _ _ _ Hxss) as Hlen.
    unfold range in Hlen. rewrite length_map, length_seq in Hlen.
    destruct dim as [|dim'];
      [destruct xss; [discriminate|simpl in Hlen; lia]|].
    apply np_stack_Ok in Hsuv as (Hrows & Hnr & Hall).
    split; [congruence|].
    destruct (traverse_lookup _ _ _ 0 0%Z Hxss eq_refl) as (row & Hrow & Hf).
    unfold apply_nested in Hf.
    apply bind_Ok_inv in Hf as (p & _ & Hf).
    apply calc_overlap_row_length in Hf.
    rewrite Forall_forall in Hall.
    rewrite <- (Hall row); [assumption|].
    by eapply list_elem_of_lookup_2.
Qed.

(** With a transformation the builder multiplies what it builds without
    one. *)
Lemma transformed_builder_unfold T d dim mol0 mol1 :
  calcOverlapMtx comps osm uninit (Some T) d dim mol0 mol1
  = (suv ← calcOverlapMtx comps osm uninit None d dim mol0 mol1;
     t ← np_dot suv (np_transpose T);
     np_dot T t).
Proof.
  unfold calcOverlapMtx.
  destruct (traverse _ _) as [xss|e]; [|reflexivity]. simpl.
  destruct (np_stack xss); reflexivity.
Qed.

End BuilderFacts.

(** ** The three-point coupling, in exact arithmetic *)

Section CouplingFacts.
Local Open Scope R_scope.
Variable comps : string -> nat -> Z.
Variable osm : R -> R -> R -> R -> R -> R -> R -> R -> R.
Variable uninit : nat -> R.

Lemma project_spec_ext (n : nat) (S S' C0 C1 : mat) (i j : nat) :
  (forall k l, (k < n)%nat -> (l < n)%nat -> S k l = S' k l) ->
  project_spec n S C0 C1 i j = project_spec n S' C0 C1 i j.
Proof.
  intros HS. unfold project_spec, mat_mul.
  apply big_sum_ext. intros l Hl. f_equal.
  apply big_sum_ext. intros k Hk. by rewrite HS.
Qed.

Lemma project_spec_np_transpose (S : Matrix R) (n : nat) (C0 C1 : mat)
    (i j : nat) :
  has_shape S n n ->
  project_spec n (entry (np_transpose S)) C0 C1 i j
  = project_spec n (mat_T (entry S)) C0 C1 i j.
Proof.
  intros [Hr Hc]. apply project_spec_ext. intros k l Hk Hl.
  unfold mat_T. apply entry_np_transpose; lia.
Qed.

Lemma py_div_nonzero (x y : R) : y <> 0 -> py_div x y = Ok (x / y).
Proof.
  intros Hy. unfold py_div. simpl. by destruct (Req_dec_T y 0).
Qed.

(** Once the two overlap matrices are built, the estimator returns the
    three-point combination of their projections. *)
Lemma coupling_formula g0 g1 g2 C0 C1 C2 d dt T dim S0 S1 n :
  count_cgfs d g0 = Ok dim ->
  calcOverlapMtx comps osm uninit T d dim g0 g1 = Ok S0 ->
  calcOverlapMtx comps osm uninit T d dim g1 g2 = Ok S1 ->
  has_shape C0 (overlap_dim T dim) n ->
  has_shape C1 (overlap_dim T dim) n ->
  has_shape C2 (overlap_dim T dim) n ->
  dt <> 0 ->
  calculateCoupling3Points comps osm uninit (g0, g1, g2) (C0, C1, C2) d dt T
  = Ok (build_matrix n n
          (coupling_spec (overlap_dim T dim) (entry S0) (entry S1)
             (entry C0) (entry C1) (entry C2) dt)).
Proof.
  intros Hdim HS0 HS1 H0 H1 H2 Hdt.
  pose proof (calcOverlapMtx_shape _ _ _ _ _ _ _ _ _ HS0) as HsS0.
  pose proof (calcOverlapMtx_shape _ _ _ _ _ _ _ _ _ HS1) as HsS1.
  set (m := overlap_dim T dim) in *.
  assert (HsT0 : has_shape (np_transpose S0) m m)
    by (destruct HsS0; split; simpl; congruence).
  assert (HsT1 : has_shape (np_transpose S1) m m)
    by (destruct HsS1; split; simpl; congruence).
  unfold calculateCoupling3Points.
  rewrite !map_coordinates_to_numpy, Hdim. simpl.
  rewrite HS0. simpl. rewrite HS1. simpl.
  rewrite (calculate_overlap_project S0 C0 C1 m n n) by assumption. simpl.
  rewrite (calculate_overlap_project S1 C1 C2 m n n) by assumption. simpl.
  rewrite (calculate_overlap_project _ C1 C0 m n n) by assumption. simpl.
  rewrite (calculate_overlap_project _ C2 C1 m n n) by assumption. simpl.
  rewrite py_div_nonzero by lra. simpl.
  unfold np_sub, np_add.
  rewrite (np_binop_same_shape _ _ _ n n) by apply build_matrix_shape. simpl.
  rewrite (np_binop_same_shape _ _ _ n n) by apply build_matrix_shape. simpl.
  rewrite (np_binop_same_shape _ _ _ n n) by apply build_matrix_shape. simpl.
  f_equal. unfold np_scale. simpl.
  apply build_matrix_ext. intros i j Hi Hj.
  rewrite !entry_build_matrix by assumption.
  unfold coupling_spec.
  rewrite !project_spec_np_transpose by assumption.
  field. assumption.
Qed.

(** The three-point combination is antisymmetric, whatever the overlap
    matrices hold. *)
Lemma coupling_spec_antisymmetric n S0 S1 C0 C1 C2 dt i j :
  coupling_spec n S0 S1 C0 C1 C2 dt i j
  = - coupling_spec n S0 S1 C0 C1 C2 dt j i.
Proof.
  unfold coupling_spec. rewrite !project_spec_transpose.
  unfold Rdiv. ring.
Qed.

(** With one geometry and one set of coefficients at the three frames
    and a symmetric overlap matrix, the coupling vanishes. *)
Lemma coupling_static g C d dt T dim S n :
  count_cgfs d g = Ok dim ->
  calcOverlapMtx comps osm uninit T d dim g g = Ok S ->
  (forall i j, (i < overlap_dim T dim)%nat -> (j < overlap_dim T dim)%nat ->
               entry S i j = entry S j i) ->
  has_shape C (overlap_dim T dim) n ->
  dt <> 0 ->
  calculateCoupling3Points comps osm uninit (g, g, g) (C, C, C) d dt T
  = Ok (zeros n n).
Proof.
  intros Hdim HS Hsym HC Hdt.
  rewrite (coupling_formula g g g C C C d dt T dim S S n) by assumption.
  f_equal. apply build_matrix_ext. intros i j Hi Hj.
  unfold coupling_spec.
  rewrite (project_spec_ext _ (mat_T (entry S)) (entry S))
    by (intros; unfold mat_T; by apply Hsym).
  simpl. unfold Rdiv. ring.
Qed.

Lemma sab_unfolded_Ok r1 r2 ls1 ls2 c1 c2 e1 e2 :
  0 < e1 + e2 ->
  exists v, sab_unfolded osm r1 r2 ls1 ls2 c1 c2 e1 e2 = Ok v.
Proof.
  intros He. unfold sab_unfolded. simpl.
  destruct (Rlt_dec (PI / (e1 + e2)) 0) as [Hneg|_].
  - exfalso. pose proof PI_RGT_0.
    assert (0 < PI / (e1 + e2)) by (apply Rdiv_lt_0_compat; lra). lra.
  - simpl. eauto.
Qed.

(** One atom with one basis function of one primitive: the builder
    returns a matrix of one entry. *)
Lemma calcOverlapMtx_one_function sym pos c e orb :
  0 < e ->
  exists v,
    calcOverlapMtx comps osm uninit None
      {[sym := [mkCGF ([c], [e]) orb]]} 1
      [mkAtom sym pos] [mkAtom sym pos]
    = Ok (mkMatrix 1 1 [[v]]).
Proof.
  intros He.
  destruct (sab_unfolded_Ok pos pos (orb_components comps orb)
              (orb_components comps orb) c c e e) as [v Hv]; [lra|].
  exists (v + 0).
  pose proof (dict_get_singleton sym [mkCGF ([c], [e]) orb]) as Hd.
  revert Hd. generalize ({[sym := [mkCGF ([c], [e]) orb]]}
                         : gmap string (list (CGF R))).
  intros d Hd.
  unfold calcOverlapMtx, apply_nested, lookup_cgf, calc_overlap_row. simpl.
  rewrite Hd. simpl.
  unfold apply_contraction, apply_along_columns, entry.
  cbn -[sab_unfolded]. rewrite Hv. reflexivity.
Qed.

Lemma count_cgfs_one_function (sym : string) (pos : Vec3 R) (g : CGF R) :
  count_cgfs {[sym := [g]]} [mkAtom sym pos] = Ok 1%nat.
Proof.
  simpl. unfold dict_get. rewrite lookup_fmap, lookup_singleton_eq.
  reflexivity.
Qed.

End CouplingFacts.

(** ** The one-atom system *)

Section OneAtom.
Local Open Scope R_scope.

Lemma cd_count : count_cgfs cd_basis [cd_atom] = Ok 1%nat.
Proof. apply count_cgfs_one_function. Qed.

Lemma cd_overlap_built :
  calcOverlapMtx s_components unit_integral zero_cells None cd_basis 1
    [cd_atom] [cd_atom] = Ok cd_overlap.
Proof.
  pose proof (dict_get_singleton "Cd" [mkCGF ([1], [1]) "S" : CGF R]) as Hd.
  unfold cd_basis, cd_atom. revert Hd.
  generalize ({["Cd" := [mkCGF ([1], [1]) "S"]]}
              : gmap string (list (CGF R))).
  intros d Hd.
  assert (Hsab : sab_unfolded unit_integral (V3 0 0 0) (V3 0 0 0)
                   (orb_components s_components "S")
                   (orb_components s_components "S") 1 1 1 1
                 = Ok (1 * 1 * (1 * (1 * (1 * 1))))).
  { unfold sab_unfolded. simpl.
    destruct (Rlt_dec (PI / (1 + 1)) 0) as [Hneg|_]; [|reflexivity].
    exfalso. pose proof PI_RGT_0.
    assert (0 < PI / (1 + 1)) by (apply Rdiv_lt_0_compat; lra). lra. }
  unfold calcOverlapMtx, apply_nested, lookup_cgf, calc_overlap_row. simpl.
  rewrite Hd. simpl.
  unfold apply_contraction, apply_along_columns, entry.
  cbn -[sab_unfolded]. rewrite Hsab. reflexivity.
Qed.

(** One atom with one function of one primitive, the same geometry and
    coefficients at the three frames: the coupling is the zero matrix,
    for every time step but zero. *)
Lemma coupling_one_function comps osm uninit sym pos e orb C n dt :
  0 < e -> has_shape C 1 n -> dt <> 0 ->
  calculateCoupling3Points comps osm uninit
    ([mkAtom sym pos], [mkAtom sym pos], [mkAtom sym pos]) (C, C, C)
    {[sym := [mkCGF ([1], [e]) orb]]} dt None
  = Ok (zeros n n).
Proof.
  intros He HC Hdt.
  destruct (calcOverlapMtx_one_function comps osm uninit sym pos 1 e orb He)
    as [v Hv].
  apply (coupling_static comps osm uninit _ C _ dt None 1%nat
           (mkMatrix 1 1 [[v]]) n); try assumption.
  - apply count_cgfs_one_function.
  - simpl. intros i j Hi Hj. by replace i with 0%nat by lia; replace j with 0%nat by lia.
Qed.

Lemma cd_coupling (dt : R) :
  dt <> 0 ->
  calculateCoupling3Points s_components unit_integral zero_cells
    ([cd_atom], [cd_atom], [cd_atom])
    (two_orbitals, two_orbitals, two_orbitals) cd_basis dt None
  = Ok (zeros 2 2).
Proof.
  intros Hdt. apply coupling_one_function; [lra | by split | assumption].
Qed.

End OneAtom.

(** ** The moving system *)

Section Moving.
Local Open Scope R_scope.

Lemma centre_sab x1 y1 z1 x2 y2 z2 (ls1 ls2 : Vec3 R) c1 c2 e1 e2 :
  0 < e1 + e2 ->
  sab_unfolded centre_integral (V3 x1 y1 z1) (V3 x2 y2 z2) ls1 ls2
    c1 c2 e1 e2
  = Ok (c1 * c2 * (((e1 * x1 + e2 * x2) / (e1 + e2) + 1)
                   * (((e1 * y1 + e2 * y2) / (e1 + e2) + 1)
                      * (((e1 * z1 + e2 * z2) / (e1 + e2) + 1) * 1)))).
Proof.
  intros He. unfold sab_unfolded. simpl.
  destruct (Rlt_dec (PI / (e1 + e2)) 0) as [Hneg|_]; [|reflexivity].
  exfalso. pose proof PI_RGT_0.
  assert (0 < PI / (e1 + e2)) by (apply Rdiv_lt_0_compat; lra). lra.
Qed.

Lemma mv_count : count_cgfs cd_basis mv_frame_0 = Ok 2%nat.
Proof. reflexivity. Qed.

Lemma mv_overlap_0_built (uninit : nat -> R) :
  calcOverlapMtx s_components centre_integral uninit None cd_basis 2
    mv_frame_0 mv_frame_1 = Ok mv_overlap_0.
Proof.
  pose proof (dict_get_singleton "Cd" [mkCGF ([1], [1]) "S" : CGF R]) as Hd.
  unfold cd_basis, mv_frame_0, mv_frame_1. revert Hd.
  generalize ({["Cd" := [mkCGF ([1], [1]) "S"]]}
              : gmap string (list (CGF R))).
  intros d Hd.
  unfold calcOverlapMtx, apply_nested, lookup_cgf, calc_overlap_row. simpl.
  rewrite !Hd. simpl.
  unfold apply_contraction, apply_along_columns, entry.
  cbn -[sab_unfolded]. rewrite !centre_sab by lra. simpl.
  unfold mv_overlap_0. repeat (f_equal; try lra).
Qed.

Lemma mv_overlap_1_built (uninit : nat -> R) :
  calcOverlapMtx s_components centre_integral uninit None cd_basis 2
    mv_frame_1 mv_frame_2 = Ok mv_overlap_1.
Proof.
  pose proof (dict_get_singleton "Cd" [mkCGF ([1], [1]) "S" : CGF R]) as Hd.
  unfold cd_basis, mv_frame_1, mv_frame_2. revert Hd.
  generalize ({["Cd" := [mkCGF ([1], [1]) "S"]]}
              : gmap string (list (CGF R))).
  intros d Hd.
  unfold calcOverlapMtx, apply_nested, lookup_cgf, calc_overlap_row. simpl.
  rewrite !Hd. simpl.
  unfold apply_contraction, apply_along_columns, entry.
  cbn -[sab_unfolded]. rewrite !centre_sab by lra. simpl.
  unfold mv_overlap_1. repeat (f_equal; try lra).
Qed.

Lemma mv_coupling_built :
  calculateCoupling3Points s_components centre_integral zero_cells
    (mv_frame_0, mv_frame_1, mv_frame_2) (mv_css0, mv_css1, mv_css2)
    cd_basis 1 None
  = Ok mv_coupling.
Proof.
  rewrite (coupling_formula s_components centre_integral zero_cells
             mv_frame_0 mv_frame_1 mv_frame_2 mv_css0 mv_css1 mv_css2
             cd_basis 1 None 2 mv_overlap_0 mv_overlap_1 2).
  - unfold mv_coupling, build_matrix, coupling_spec, project_spec, mat_mul,
      mat_T, entry. simpl.
    repeat (f_equal; try lra).
  - exact mv_count.
  - apply mv_overlap_0_built.
  - apply mv_overlap_1_built.
  - split; reflexivity.
  - split; reflexivity.
  - split; reflexivity.
  - lra.
Qed.
End Moving.

(** ** The claims on the builder and the estimator *)

Section EstimatorClaims.
Local Open Scope R_scope.
Variable comps : string -> nat -> Z.
Variable osm : R -> R -> R -> R -> R -> R -> R -> R -> R.
Variable uninit : nat -> R.

(** C6. With a transformation [T] whose columns match the dimension, the
    builder returns [T · S · Tᵗ], where [S] is the matrix it returns
    without a transformation (and then [S] is returned as built). *)
Theorem calcOverlapMtx_transform T d dim mol0 mol1 S :
  calcOverlapMtx comps osm uninit None d dim mol0 mol1 = Ok S ->
  ncols T = dim ->
  calcOverlapMtx comps osm uninit (Some T) d dim mol0 mol1
  = Ok (build_matrix (nrows T) (nrows T)
          (transform_spec dim (entry T) (entry S))).
Proof.
  intros HS HT.
  destruct (calcOverlapMtx_shape _ _ _ _ _ _ _ _ _ HS) as [HSr HSc].
  simpl in HSr, HSc.
  rewrite transformed_builder_unfold, HS. simpl.
  rewrite np_dot_Ok by (simpl; congruence). simpl.
  rewrite np_dot_Ok by (simpl; congruence). simpl.
  rewrite HSr, HSc, HT. f_equal.
  apply build_matrix_ext. intros i j Hi Hj.
  unfold transform_spec. rewrite mat_mul_assoc.
  rewrite fsum_big_sum. unfold mat_mul at 1.
  apply big_sum_ext. intros k Hk.
  rewrite entry_build_matrix by lia.
  rewrite fsum_big_sum. unfold mat_mul. f_equal.
  apply big_sum_ext. intros l Hl. unfold mat_T.
  rewrite entry_np_transpose by lia. reflexivity.
Qed.

(** C4. On three frames whose overlap matrices [S0] (previous, current)
    and [S1] (current, next) are built, with coefficient matrices of the
    dimension of the overlaps and [n] orbitals and a time step that is
    not zero, the estimator returns the [n × n] matrix
    [3·(Sji_t1 − Sij_t1) + (Sij_t0 − Sji_t0)] / (4·dt), where
    Sji_t0 = C0ᵗ·S0·C1, Sij_t0 = C1ᵗ·S0ᵗ·C0, Sji_t1 = C1ᵗ·S1·C2 and
    Sij_t1 = C2ᵗ·S1ᵗ·C1. *)
Theorem coupling_three_point_formula g0 g1 g2 C0 C1 C2 d dt T dim S0 S1 n :
  count_cgfs d g0 = Ok dim ->
  calcOverlapMtx comps osm uninit T d dim g0 g1 = Ok S0 ->
  calcOverlapMtx comps osm uninit T d dim g1 g2 = Ok S1 ->
  has_shape C0 (overlap_dim T dim) n ->
  has_shape C1 (overlap_dim T dim) n ->
  has_shape C2 (overlap_dim T dim) n ->
  dt <> 0 ->
  calculateCoupling3Points comps osm uninit (g0, g1, g2) (C0, C1, C2) d dt T
  = Ok (build_matrix n n
          (coupling_spec (overlap_dim T dim) (entry S0) (entry S1)
             (entry C0) (entry C1) (entry C2) dt)).
Proof. apply coupling_formula. Qed.

Lemma py_div_inv (x y q : R) : py_div x y = Ok q -> y <> 0.
Proof.
  unfold py_div. simpl. destruct (Req_dec_T y 0); [discriminate|done].
Qed.

(** C3. In exact arithmetic, whenever the estimator returns a matrix [M]
    for coefficient matrices with one number [n] of orbitals, [M] is
    [n × n], equal to the opposite of its transpose, with a diagonal of
    zeros. *)
Theorem coupling_antisymmetric g0 g1 g2 C0 C1 C2 d dt T M :
  ncols C1 = ncols C0 -> ncols C2 = ncols C0 ->
  calculateCoupling3Points comps osm uninit (g0, g1, g2) (C0, C1, C2) d dt T
  = Ok M ->
  has_shape M (ncols C0) (ncols C0) /\
  M = np_scale (-1) (np_transpose M) /\
  (forall i j, (i < ncols C0)%nat -> (j < ncols C0)%nat ->
               entry M i j = - entry M j i) /\
  (forall i, (i < ncols C0)%nat -> entry M i i = 0).
Proof.
  intros Hn1 Hn2 HM. pose proof HM as Hrun.
  unfold calculateCoupling3Points in Hrun.
  rewrite !map_coordinates_to_numpy in Hrun.
  apply bind_Ok_inv in Hrun as (dim & Hdim & Hrun).
  apply bind_Ok_inv in Hrun as (S0 & HS0 & Hrun).
  apply bind_Ok_inv in Hrun as (S1 & HS1 & Hrun).
  apply bind_Ok_inv in Hrun as (P0 & HP0 & Hrun).
  apply bind_Ok_inv in Hrun as (P1 & HP1 & Hrun).
  apply bind_Ok_inv in Hrun as (Q0 & HQ0 & Hrun).
  apply bind_Ok_inv in Hrun as (Q1 & HQ1 & Hrun).
  apply bind_Ok_inv in Hrun as (cte & Hcte & _).
  apply py_div_inv in Hcte.
  destruct (calcOverlapMtx_shape _ _ _ _ _ _ _ _ _ HS0) as [HS0r HS0c].
  destruct (calcOverlapMtx_shape _ _ _ _ _ _ _ _ _ HS1) as [HS1r HS1c].
  apply calculate_overlap_inv in HP0 as (Ha & Hb & _).
  apply calculate_overlap_inv in HP1 as (Hc & _ & _).
  remember (ncols C0) as n eqn:Hn.
  rewrite (coupling_formula comps osm uninit g0 g1 g2 C0 C1 C2 d dt T dim
             S0 S1 n) in HM;
    [ | assumption | assumption | assumption
      | split; congruence | split; congruence | split; congruence
      | intros Hz; apply Hcte; rewrite Hz; simpl; ring ].
  inversion HM as [HMeq]. clear HM.
  set (f := coupling_spec _ _ _ _ _ _ _).
  assert (Hanti : forall i j, f i j = - f j i)
    by (intros; apply coupling_spec_antisymmetric).
  split; [apply build_matrix_shape|].
  split; [|split].
  - unfold np_scale, np_transpose. simpl.
    apply build_matrix_ext. intros i j Hi Hj.
    rewrite !entry_build_matrix by assumption.
    rewrite (Hanti i j). ring.
  - intros i j Hi Hj. rewrite !entry_build_matrix by assumption.
    apply Hanti.
  - intros i Hi. rewrite entry_build_matrix by assumption.
    pose proof (Hanti i i). lra.
Qed.

(** C9. One atom, a basis of one S function with one primitive of
    coefficient 1 and positive exponent, the same geometry and the same
    coefficients at the three frames, a time step of 1: the estimator
    returns the [n × n] matrix of zeros. *)
Theorem coupling_static_single_function sym pos e C n :
  0 < e -> has_shape C 1 n ->
  exists M,
    calculateCoupling3Points comps osm uninit
      ([mkAtom sym pos], [mkAtom sym pos], [mkAtom sym pos]) (C, C, C)
      {[sym := [mkCGF ([1], [e]) "S"]]} 1 None
    = Ok M /\
    M = zeros n n /\
    forall i j, (i < n)%nat -> (j < n)%nat ->
      entry M i j = 0 /\ Rabs (entry M i j) < / 10 ^ 10.
Proof.
  intros He HC. exists (zeros n n).
  split; [apply coupling_one_function; [assumption | assumption | lra]|].
  split; [reflexivity|].
  intros i j Hi Hj. unfold zeros. rewrite entry_build_matrix by assumption.
  change (@of_Z R R_scalar 0) with 0. split; [reflexivity|].
  rewrite Rabs_R0. apply Rinv_0_lt_compat, pow_lt. lra.
Qed.

(** C7, as the code has it. The estimator does not look at the sign of
    the time step: with a negative step it does what it does with the
    opposite step, raising the same exceptions, and returns the opposite
    matrix. *)
Theorem coupling_negative_step geometries coefficients d dt T :
  dt < 0 ->
  calculateCoupling3Points comps osm uninit geometries coefficients d dt T
  = np_scale (-1)
      <$> calculateCoupling3Points comps osm uninit geometries coefficients
            d (- dt) T.
Proof.
  intros Hdt. destruct geometries as [[g0 g1] g2].
  destruct coefficients as [[C0 C1] C2].
  unfold calculateCoupling3Points. rewrite !map_coordinates_to_numpy.
  destruct (count_cgfs d g0) as [dim|]; [simpl|reflexivity].
  destruct (calcOverlapMtx comps osm uninit T d dim g0 g1) as [S0|];
    [simpl|reflexivity].
  destruct (calcOverlapMtx comps osm uninit T d dim g1 g2) as [S1|];
    [simpl|reflexivity].
  destruct (calculate_overlap S0 C0 C1) as [P0|]; [simpl|reflexivity].
  destruct (calculate_overlap S1 C1 C2) as [P1|]; [simpl|reflexivity].
  destruct (calculate_overlap _ C1 C0) as [Q0|]; [simpl|reflexivity].
  destruct (calculate_overlap _ C2 C1) as [Q1|]; [simpl|reflexivity].
  change (py_div 1 (4 * dt) ≫= _) with
    (cte ← py_div 1 (4 * dt); d1 ← np_sub P1 Q1; d0 ← np_sub Q0 P0;
     s ← np_add (np_scale 3 d1) d0; Ok (np_scale cte s)).
  rewrite !py_div_nonzero by lra. simpl.
  destruct (np_sub P1 Q1) as [d1|]; [simpl|reflexivity].
  destruct (np_sub Q0 P0) as [d0|]; [simpl|reflexivity].
  destruct (np_add _ d0) as [s|]; [simpl|reflexivity].
  f_equal. unfold np_scale. simpl.
  apply build_matrix_ext. intros i j Hi Hj.
  rewrite entry_build_matrix by assumption. field. lra.
Qed.

(** With a time step of zero the estimator returns no matrix: the
    division [1.0 / (4.0 * dt)] raises once the overlaps are projected,
    unless an earlier step has raised. *)
Lemma coupling_zero_step geometries coefficients d T :
  is_ok (calculateCoupling3Points comps osm uninit geometries coefficients
           d 0 T) = false.
Proof.
  destruct geometries as [[g0 g1] g2]. destruct coefficients as [[C0 C1] C2].
  destruct (calculateCoupling3Points _ _ _ _ _ _ _ _) as [M|] eqn:Hrun;
    [|reflexivity].
  exfalso. unfold calculateCoupling3Points in Hrun.
  apply bind_Ok_inv in Hrun as (dim & _ & Hrun).
  apply bind_Ok_inv in Hrun as (S0 & _ & Hrun).
  apply bind_Ok_inv in Hrun as (S1 & _ & Hrun).
  apply bind_Ok_inv in Hrun as (P0 & _ & Hrun).
  apply bind_Ok_inv in Hrun as (P1 & _ & Hrun).
  apply bind_Ok_inv in Hrun as (Q0 & _ & Hrun).
  apply bind_Ok_inv in Hrun as (Q1 & _ & Hrun).
  apply bind_Ok_inv in Hrun as (cte & Hcte & _).
  apply py_div_inv in Hcte. apply Hcte. simpl. ring.
Qed.

End EstimatorClaims.

(** ** The claims on the one-atom system *)

Section Witnesses.
Local Open Scope R_scope.

Lemma calcOverlapMtx_transform_witness :
  calcOverlapMtx s_components unit_integral zero_cells
    (Some cd_transform) cd_basis 1 [cd_atom] [cd_atom]
  = Ok (build_matrix (nrows cd_transform) (nrows cd_transform)
          (transform_spec 1 (entry cd_transform) (entry cd_overlap))).
Proof.
  apply (calcOverlapMtx_transform s_components unit_integral zero_cells
           cd_transform cd_basis 1 [cd_atom] [cd_atom] cd_overlap).
  - exact cd_overlap_built.
  - reflexivity.
Defined.

Lemma mv_formula_value :
  build_matrix 2 2
    (coupling_spec 2 (entry mv_overlap_0) (entry mv_overlap_1)
       (entry mv_css0) (entry mv_css1) (entry mv_css2) 1)
  = mv_coupling.
Proof.
  unfold mv_coupling, build_matrix, coupling_spec, project_spec, mat_mul,
    mat_T, entry. simpl.
  repeat (f_equal; try lra).
Qed.

Lemma coupling_three_point_formula_witness :
  calculateCoupling3Points s_components centre_integral zero_cells
    (mv_frame_0, mv_frame_1, mv_frame_2) (mv_css0, mv_css1, mv_css2)
    cd_basis 1 None
  = Ok (build_matrix 2 2
          (coupling_spec 2 (entry mv_overlap_0) (entry mv_overlap_1)
             (entry mv_css0) (entry mv_css1) (entry mv_css2) 1)) /\
  build_matrix 2 2
    (coupling_spec 2 (entry mv_overlap_0) (entry mv_overlap_1)
       (entry mv_css0) (entry mv_css1) (entry mv_css2) 1)
  = mkMatrix 2 2 [[0; -15]; [15; 0]].
Proof.
  split; [|exact mv_formula_value].
  apply (coupling_three_point_formula s_components centre_integral
           zero_cells mv_frame_0 mv_frame_1 mv_frame_2
           mv_css0 mv_css1 mv_css2 cd_basis 1 None 2
           mv_overlap_0 mv_overlap_1 2).
  - exact mv_count.
  - exact (mv_overlap_0_built zero_cells).
  - exact (mv_overlap_1_built zero_cells).
  - split; reflexivity.
  - split; reflexivity.
  - split; reflexivity.
  - lra.
Defined.

Lemma coupling_antisymmetric_witness :
  has_shape mv_coupling (ncols mv_css0) (ncols mv_css0) /\
  mv_coupling = np_scale (-1) (np_transpose mv_coupling) /\
  (forall i j, (i < ncols mv_css0)%nat -> (j < ncols mv_css0)%nat ->
               entry mv_coupling i j = - entry mv_coupling j i) /\
  (forall i, (i < ncols mv_css0)%nat -> entry mv_coupling i i = 0).
Proof.
  apply (coupling_antisymmetric s_components centre_integral zero_cells
           mv_frame_0 mv_frame_1 mv_frame_2 mv_css0 mv_css1 mv_css2
           cd_basis 1 None mv_coupling).
  - reflexivity.
  - reflexivity.
  - exact mv_coupling_built.
Defined.

Lemma coupling_static_single_function_witness :
  exists M,
    calculateCoupling3Points s_components unit_integral zero_cells
      cd_frames cd_orbitals cd_basis 1 None = Ok M /\
    M = zeros 2 2 /\
    forall i j, (i < 2)%nat -> (j < 2)%nat ->
      entry M i j = 0 /\ Rabs (entry M i j) < / 10 ^ 10.
Proof.
  apply (coupling_static_single_function s_components unit_integral
           zero_cells "Cd" (V3 0 0 0) 1 two_orbitals 2).
  - lra.
  - split; reflexivity.
Defined.

Lemma coupling_negative_step_witness :
  calculateCoupling3Points s_components unit_integral zero_cells
    cd_frames cd_orbitals cd_basis (-1) None
  = np_scale (-1)
      <$> calculateCoupling3Points s_components unit_integral zero_cells
            cd_frames cd_orbitals cd_basis (- -1) None.
Proof.
  apply (coupling_negative_step s_components unit_integral zero_cells
           cd_frames cd_orbitals cd_basis (-1) None).
  lra.
Defined.

(** C7. With the time step -1 the estimator raises nothing: it returns
    the coupling matrix of the one-atom system. *)
Lemma negative_step_not_rejected :
  -1 <= 0 /\
  calculateCoupling3Points s_components unit_integral zero_cells
    cd_frames cd_orbitals cd_basis (-1) None
  = Ok (zeros 2 2).
Proof. split; [lra | apply cd_coupling; lra]. Qed.

Lemma calculate_overlap_product_pure_witness :
  exists out h',
    Store.calculate_overlap_st cd_suv cd_css cd_css cd_heap = Ok (out, h') /\
    Store.read h' out
    = build_matrix 2 2
        (project_spec 1 (entry (Store.read cd_heap cd_suv))
           (entry (Store.read cd_heap cd_css))
           (entry (Store.read cd_heap cd_css))) /\
    calculate_overlap (Store.read cd_heap cd_suv) (Store.read cd_heap cd_css)
      (Store.read cd_heap cd_css) = Ok (Store.read h' out) /\
    (forall l M, cd_heap !! l = Some M -> h' !! l = Some M) /\
    Store.read h' cd_suv = Store.read cd_heap cd_suv /\
    Store.read h' cd_css = Store.read cd_heap cd_css /\
    Store.read h' cd_css = Store.read cd_heap cd_css.
Proof.
  apply (calculate_overlap_product_pure cd_heap cd_suv cd_css cd_css 1 2 2).
  - exists cd_overlap. reflexivity.
  - exists two_orbitals. reflexivity.
  - exists two_orbitals. reflexivity.
  - split; reflexivity.
  - split; reflexivity.
  - split; reflexivity.
Defined.

End Witnesses.

(** ** What the builder does with the values of the primitive integral *)

Section Outcomes.
Context {F : Type} `{Scalar F}.
Variable comps : string -> nat -> Z.
Variables osm osm' : F -> F -> F -> F -> F -> F -> F -> F -> F.
Variable uninit : nat -> F.

Lemma result_rel_bind {A B} (relA : A -> A -> Prop) (relB : B -> B -> Prop)
    (x y : result A) (k k' : A -> result B) :
  result_rel relA x y ->
  (forall a b, relA a b -> result_rel relB (k a) (k' b)) ->
  result_rel relB (x ≫= k) (y ≫= k').
Proof.
  destruct x as [a|e], y as [b|e']; simpl; intros Hxy Hk;
    try contradiction; auto.
Qed.

Lemma result_rel_refl {A} (rel : A -> A -> Prop) (x : result A) :
  (forall a, rel a a) -> result_rel rel x x.
Proof. destruct x; simpl; auto. Qed.

Lemma traverse_rel {A B} (rel : B -> B -> Prop) (f g : A -> result B)
    (l : list A) :
  (forall x, result_rel rel (f x) (g x)) ->
  result_rel (Forall2 rel) (traverse f l) (traverse g l).
Proof.
  intros Hfg. induction l as [|x l IH]; simpl; [constructor|].
  eapply result_rel_bind; [apply Hfg|]. intros y y' Hy.
  eapply result_rel_bind; [apply IH|]. intros ys ys' Hys.
  simpl. by constructor.
Qed.

Lemma sab_unfolded_rel r1 r2 ls1 ls2 c1 c2 e1 e2 :
  result_rel any_value (sab_unfolded osm r1 r2 ls1 ls2 c1 c2 e1 e2)
                 (sab_unfolded osm' r1 r2 ls1 ls2 c1 c2 e1 e2).
Proof.
  unfold sab_unfolded. destruct (math_sqrt _); simpl; [exact I|reflexivity].
Qed.

Lemma apply_contraction_rel xyz_0 xyz_1 li lj ps_i ps_j :
  result_rel any_value (apply_contraction comps osm xyz_0 xyz_1 li lj ps_i ps_j)
                 (apply_contraction comps osm' xyz_0 xyz_1 li lj ps_i ps_j).
Proof.
  unfold apply_contraction. destruct ps_i as [csi esi], ps_j as [csj esj].
  eapply result_rel_bind; [apply (result_rel_refl eq); reflexivity|].
  intros mtx ? <-.
  eapply (result_rel_bind (Forall2 any_value)); [|intros; exact I].
  unfold apply_along_columns. destruct (ncols mtx =? 0)%nat; [reflexivity|].
  apply traverse_rel. intros k.
  destruct (map _ _) as [|c1 [|c2 [|e1 [|e2 [|? ?]]]]]; try reflexivity.
  apply sab_unfolded_rel.
Qed.

Lemma Forall2_any_length (l l' : list F) : Forall2 any_value l l' -> same_length l l'.
Proof. apply Forall2_length. Qed.

Lemma calc_overlap_atom_rel xyz_0 cgf_i xyz_1 cgfs :
  result_rel same_length
    (calc_overlap_atom comps osm xyz_0 cgf_i xyz_1 cgfs)
    (calc_overlap_atom comps osm' xyz_0 cgf_i xyz_1 cgfs).
Proof.
  unfold calc_overlap_atom.
  pose proof (traverse_rel any_value
                (fun cgf_j => apply_contraction comps osm xyz_0 xyz_1
                   (orbType cgf_i) (orbType cgf_j) (primitives cgf_i)
                   (primitives cgf_j))
                (fun cgf_j => apply_contraction comps osm' xyz_0 xyz_1
                   (orbType cgf_i) (orbType cgf_j) (primitives cgf_i)
                   (primitives cgf_j)) cgfs) as Hrel.
  specialize (Hrel (fun cgf_j => apply_contraction_rel _ _ _ _ _ _)).
  destruct (traverse _ cgfs), (traverse _ cgfs); simpl in *;
    try contradiction; try assumption.
  by apply Forall2_any_length.
Qed.

(** A slice assignment looks at lengths only. *)
Lemma slice_assign_rel (row row' vs vs' : list F) (start : nat) :
  same_length row row' -> same_length vs vs' ->
  result_rel same_length (slice_assign row start vs)
                         (slice_assign row' start vs').
Proof.
  unfold same_length, slice_assign. intros Hrow Hvs. rewrite <- Hrow, <- Hvs.
  destruct (Nat.eqb _ (length vs)); simpl.
  - rewrite !length_app, !length_take, !length_drop. lia.
  - destruct vs as [|v [|? ?]], vs' as [|v' [|? ?]]; try discriminate;
      simpl; try reflexivity.
    rewrite !length_app, !length_take, !length_replicate, !length_drop. lia.
Qed.

Lemma overlap_row_loop_rel d xyz_0 cgf_i mol1 row row' acc :
  same_length row row' ->
  result_rel same_length
    (overlap_row_loop comps osm d xyz_0 cgf_i mol1 row acc)
    (overlap_row_loop comps osm' d xyz_0 cgf_i mol1 row' acc).
Proof.
  revert row row' acc.
  induction mol1 as [|a rest IH]; simpl; intros row row' acc Hrow;
    [assumption|].
  eapply result_rel_bind; [apply (result_rel_refl eq); reflexivity|].
  intros cgfs ? <-.
  eapply result_rel_bind; [apply calc_overlap_atom_rel|].
  intros vs vs' Hvs.
  eapply result_rel_bind; [by apply slice_assign_rel|].
  intros r r' Hr. by apply IH.
Qed.

Lemma np_stack_rel (xss xss' : list (list F)) :
  Forall2 same_length xss xss' ->
  same_outcome (np_stack xss) (np_stack xss').
Proof.
  intros Hall. unfold same_outcome, np_stack.
  destruct Hall as [|r r' rest rest' Hr Hrest]; [reflexivity|].
  assert (Hb : forallb (fun x => (length x =? length r)%nat) rest
               = forallb (fun x => (length x =? length r')%nat) rest').
  { unfold same_length in Hr. rewrite <- Hr. clear Hr.
    induction Hrest as [|x x' l l' Hx _ IH]; simpl; [reflexivity|].
    unfold same_length in Hx. by rewrite Hx, IH. }
  rewrite Hb. destruct (forallb _ rest'); simpl; [|reflexivity].
  unfold same_shape. simpl. repeat split.
  - f_equal. by eapply Forall2_length.
  - exact Hr.
  - by constructor.
Qed.

Lemma build_matrix_same_shape (r c : nat) (f g : nat -> nat -> F) :
  same_shape (build_matrix r c f) (build_matrix r c g).
Proof.
  unfold same_shape, build_matrix. simpl. repeat split.
  apply Forall2_fmap, Forall_Forall2_diag, Forall_forall. intros i _.
  unfold same_length. by rewrite !length_map.
Qed.

Lemma np_dot_rel (A A' B B' : Matrix F) :
  same_shape A A' -> same_shape B B' ->
  same_outcome (np_dot A B) (np_dot A' B').
Proof.
  intros (HAr & HAc & _) (HBr & HBc & _). unfold same_outcome, np_dot.
  rewrite HAr, HAc, HBr, HBc.
  destruct (ncols A' =? nrows B')%nat; simpl; [|reflexivity].
  apply build_matrix_same_shape.
Qed.

Lemma same_shape_refl (M : Matrix F) : same_shape M M.
Proof.
  unfold same_shape. repeat split.
  apply Forall_Forall2_diag, Forall_forall. intros; reflexivity.
Qed.

(** C8, as the code has it. The builder never looks at the values the
    primitive integral returns: whether it raises, the exception it
    raises and the shape of the matrix it returns are the same for every
    primitive integral. *)
Theorem calcOverlapMtx_outcome_independent trans_mtx d dim mol0 mol1 :
  same_outcome (calcOverlapMtx comps osm uninit trans_mtx d dim mol0 mol1)
               (calcOverlapMtx comps osm' uninit trans_mtx d dim mol0 mol1).
Proof.
  unfold same_outcome, calcOverlapMtx.
  eapply (result_rel_bind (Forall2 same_length)).
  - apply traverse_rel. intros i. unfold apply_nested.
    eapply result_rel_bind; [apply (result_rel_refl eq); reflexivity|].
    intros p ? <-. unfold calc_overlap_row.
    apply overlap_row_loop_rel. reflexivity.
  - intros xss xss' Hxss.
    eapply result_rel_bind; [by apply np_stack_rel|].
    intros suv suv' Hsuv. destruct trans_mtx as [T|]; [|exact Hsuv].
    eapply result_rel_bind.
    + apply np_dot_rel; [exact Hsuv | apply same_shape_refl].
    + intros t t' Ht. apply np_dot_rel; [apply same_shape_refl | exact Ht].
Qed.

End Outcomes.

(** C8. A primitive integral that is not a number raises nothing: the
    builder returns the matrix that holds it. *)
Lemma nan_integral_not_raised :
  nan_integral (Fin 0) (Fin 0) (Fin 0) (Fin 0) (Fin 0) (Fin 0) (Fin 0) (Fin 0)
  = NaN /\
  is_finite NaN = false /\
  calcOverlapMtx s_components nan_integral zero_cells_x None cd_basis_x 1
    [cd_atom_x] [cd_atom_x]
  = Ok (mkMatrix 1 1 [[NaN]]).
Proof.
  split; [reflexivity|]. split; [reflexivity|].
  pose proof (dict_get_singleton "Cd"
                [mkCGF ([Fin 1], [Fin 1]) "S" : CGF xreal]) as Hd.
  unfold cd_basis_x, cd_atom_x. revert Hd.
  generalize ({["Cd" := [mkCGF ([Fin 1], [Fin 1]) "S"]]}
              : gmap string (list (CGF xreal))).
  intros d Hd.
  assert (Hsab : forall ls,
             sab_unfolded nan_integral (V3 (Fin 0) (Fin 0) (Fin 0))
               (V3 (Fin 0) (Fin 0) (Fin 0)) ls ls (Fin 1) (Fin 1) (Fin 1) (Fin 1)
             = Ok NaN).
  { intros ls. unfold sab_unfolded. simpl.
    destruct (Req_dec_T (1 + 1) 0) as [Hz|_]; [exfalso; lra|]. simpl.
    destruct (Rlt_dec (PI / (1 + 1)) 0) as [Hneg|_]; [|reflexivity].
    exfalso. pose proof PI_RGT_0.
    assert (0 < PI / (1 + 1))%R by (apply Rdiv_lt_0_compat; lra). lra. }
  unfold calcOverlapMtx, apply_nested, lookup_cgf, calc_overlap_row. simpl.
  rewrite Hd. simpl.
  unfold apply_contraction, apply_along_columns, entry.
  cbn -[sab_unfolded]. rewrite Hsab. reflexivity.
Qed.

(** * Further properties of the code *)

(** ** The basis indexer on any geometry *)

Section LookupEdges.
Context {F : Type}.
Implicit Types (d : gmap string (list (CGF F))) (atoms : list (AtomXYZ F)).

(** The loop runs to the end of the atoms when the index is not below the
    total of the blocks. *)
Lemma lookup_loop_exhausted d i atoms acc :
  (0 < i)%Z -> (0 <= acc)%Z ->
  Forall (fun a => is_Some (d !! symbol a)) atoms ->
  (0 < acc \/ atoms = [] \/
   exists a rest, atoms = a :: rest /\ 0 < block_size d a)%Z ->
  (acc + blocks_total d atoms <= i)%Z ->
  lookup_loop d i atoms acc = Ok None.
Proof.
  intros Hi. revert acc.
  induction atoms as [|a rest IH]; intros acc Hacc Hall Hfirst Hle;
    [reflexivity|].
  inversion Hall as [|? ? [cgfs Hcgfs] Hrest]; subst.
  assert (Hbs : block_size d a = Z.of_nat (length cgfs))
    by (unfold block_size; rewrite Hcgfs; reflexivity).
  assert (Hpos : (1 <= acc + Z.of_nat (length cgfs))%Z).
  { destruct Hfirst as [?|[?|(a' & rest' & Heq & Hb)]]; [lia|discriminate|].
    inversion Heq; subst. lia. }
  simpl in Hle. pose proof (blocks_total_nonneg d rest).
  simpl. unfold dict_get. rewrite Hcgfs. simpl.
  rewrite break_test by lia.
  destruct (Z.ltb_spec i (acc + Z.of_nat (length cgfs))); [lia|].
  apply IH; [lia | assumption | left; lia | lia].
Qed.

(** The loop raises [KeyError] at the first atom with an unknown symbol,
    if it has not left before. *)
Lemma lookup_loop_unknown d i pre a post acc :
  (0 < i)%Z -> (0 <= acc)%Z ->
  Forall (fun b => is_Some (d !! symbol b)) pre ->
  (0 < acc \/ pre = [] \/
   exists b rest, pre = b :: rest /\ 0 < block_size d b)%Z ->
  (acc + blocks_total d pre <= i)%Z ->
  d !! symbol a = None ->
  lookup_loop d i (pre ++ a :: post) acc = Raise KeyError.
Proof.
  intros Hi. revert acc.
  induction pre as [|b rest IH]; intros acc Hacc Hall Hfirst Hle Ha.
  - simpl. unfold dict_get. by rewrite Ha.
  - inversion Hall as [|? ? [cgfs Hcgfs] Hrest]; subst.
    assert (Hbs : block_size d b = Z.of_nat (length cgfs))
      by (unfold block_size; rewrite Hcgfs; reflexivity).
    assert (Hpos : (1 <= acc + Z.of_nat (length cgfs))%Z).
    { destruct Hfirst as [?|[?|(a' & rest' & Heq & Hb)]]; [lia|discriminate|].
      inversion Heq; subst. lia. }
    simpl in Hle. pose proof (blocks_total_nonneg d rest).
    simpl. unfold dict_get. rewrite Hcgfs. simpl.
    rewrite break_test by lia.
    destruct (Z.ltb_spec i (acc + Z.of_nat (length cgfs))); [lia|].
    apply IH; [lia | assumption | left; lia | lia | assumption].
Qed.

(** X1. On any geometry whose symbols are all in the basis and whose first
    atom has a basis function, and for every index below the dimension,
    the position [lookup_cgf] returns is the position of the atom that
    owns the index; the basis function comes from the list of the first
    atom, at the offset of the index in the owner's block, and the lookup
    raises [IndexError] when that list is too short. *)
Theorem lookup_cgf_owner_position d a0 rest cgfs0 i :
  Forall (fun a => is_Some (d !! symbol a)) (a0 :: rest) ->
  d !! symbol a0 = Some cgfs0 -> cgfs0 <> [] ->
  (0 <= i < blocks_total d (a0 :: rest))%Z ->
  exists pre a post,
    a0 :: rest = pre ++ a :: post /\
    (blocks_total d pre <= i < blocks_total d pre + block_size d a)%Z /\
    match cgfs0 !! Z.to_nat (i - blocks_total d pre) with
    | Some g => lookup_cgf (a0 :: rest) d i = Ok (xyz a, g)
    | None => lookup_cgf (a0 :: rest) d i = Raise IndexError
    end.
Proof.
  intros Hall H0 Hne Hi.
  destruct (lookup_cgf_first_symbol d a0 rest cgfs0 i Hall H0 Hne Hi)
    as (pre & a & post & Heq & Hrange & Hres).
  exists pre, a, post. split; [assumption|]. split; [assumption|].
  rewrite Hres.
  destruct (cgfs0 !! Z.to_nat (i - blocks_total d pre)) as [g|] eqn:Hg.
  - rewrite (py_index_in_range _ _ g); [reflexivity | lia | assumption].
  - apply lookup_ge_None in Hg. rewrite py_index_beyond; [reflexivity|lia].
Qed.

(** X2. An index that is positive and not below the dimension leaves the
    loop without a [break]: the lookup raises [UnboundLocalError], on the
    empty geometry too. *)
Theorem lookup_cgf_beyond_dimension d atoms i :
  Forall (fun a => is_Some (d !! symbol a)) atoms ->
  (atoms = [] \/ exists a rest, atoms = a :: rest /\ 0 < block_size d a)%Z ->
  (0 < i)%Z -> (blocks_total d atoms <= i)%Z ->
  lookup_cgf atoms d i = Raise UnboundLocalError.
Proof.
  intros Hall Hfirst Hi Hle. unfold lookup_cgf.
  destruct (Z.eqb_spec i 0); [lia|].
  rewrite lookup_loop_exhausted; [|lia|lia|assumption|right; assumption|lia].
  simpl. by destruct atoms.
Qed.

(** X3. The lookup raises [KeyError] when it meets an atom whose symbol is
    not in the basis before it reaches the owner of the index: the atoms
    before the unknown one are known and their blocks end at or below the
    index. *)
Theorem lookup_cgf_unknown_symbol d pre a post i :
  Forall (fun b => is_Some (d !! symbol b)) pre ->
  (pre = [] \/ exists b rest, pre = b :: rest /\ 0 < block_size d b)%Z ->
  d !! symbol a = None ->
  (0 <= i)%Z -> (blocks_total d pre <= i)%Z ->
  lookup_cgf (pre ++ a :: post) d i = Raise KeyError.
Proof.
  intros Hall Hfirst Ha Hi Hle. unfold lookup_cgf.
  destruct (Z.eqb_spec i 0) as [->|Hnz].
  - destruct Hfirst as [->|(b & rest & -> & Hb)].
    + simpl. unfold dict_get. by rewrite Ha.
    + simpl in Hle. pose proof (blocks_total_nonneg d rest). lia.
  - rewrite lookup_loop_unknown; try assumption; try lia; [reflexivity|].
    right. assumption.
Qed.

(** X4. When the first atom has an empty list of basis functions, every
    index from zero on raises [IndexError]: a positive index leaves the
    loop at the first atom, since [(0 - 1) // i] is -1. *)
Theorem lookup_cgf_first_block_empty d a0 rest i :
  d !! symbol a0 = Some [] -> (0 <= i)%Z ->
  lookup_cgf (a0 :: rest) d i = Raise IndexError.
Proof.
  intros H0 Hi. unfold lookup_cgf.
  destruct (Z.eqb_spec i 0) as [->|Hnz].
  - unfold dict_get. rewrite H0. reflexivity.
  - simpl. unfold dict_get. rewrite H0. simpl.
    assert (Hdiv : ((0 + Z.of_nat 0 - 1) / i = -1)%Z).
    { symmetry. apply (Z.div_unique_pos _ i (-1) (i - 1)); lia. }
    rewrite Hdiv. simpl.
    rewrite py_index_beyond; [reflexivity | simpl; lia].
Qed.

End LookupEdges.

(** ** The contraction on any two basis functions *)

Section ContractionEdges.
Context {F : Type} `{Scalar F}.
Variable comps : string -> nat -> Z.
Variable osm : F -> F -> F -> F -> F -> F -> F -> F -> F.

Lemma traverse_ext {A B} (f g : A -> result B) (l : list A) :
  (forall x, In x l -> f x = g x) -> traverse f l = traverse g l.
Proof.
  induction l as [|x l IH]; intros Hfg; [reflexivity|].
  simpl. rewrite Hfg by (by left). rewrite IH; [reflexivity|].
  intros y Hy. apply Hfg. by right.
Qed.

(** The contraction of arrays of one common positive length. *)
Lemma contraction_by_position xyz_0 xyz_1 li lj csi esi csj esj :
  length csj = length csi -> length esi = length csi ->
  length esj = length csi -> csi <> [] ->
  apply_contraction comps osm xyz_0 xyz_1 li lj (csi, esi) (csj, esj)
  = (vals ← traverse
             (fun k => sab_unfolded osm xyz_0 xyz_1
                         (orb_components comps li) (orb_components comps lj)
                         (nth k csi (of_Z 0)) (nth k csj (of_Z 0))
                         (nth k esi (of_Z 0)) (nth k esj (of_Z 0)))
             (seq 0 (length csi));
     Ok (fsum vals)).
Proof.
  intros Hcj Hei Hej Hne. unfold apply_contraction, np_stack.
  cbn [forallb]. rewrite Hcj, Hei, Hej, Nat.eqb_refl. cbn [andb mbind result_bind].
  unfold apply_along_columns. cbn [ncols nrows].
  destruct (Nat.eqb_spec (length csi) 0) as [Hz|_].
  - destruct csi; [done|discriminate].
  - f_equal.
Qed.

(** X5. Arrays of different lengths, or without any primitive, make
    [apply_contraction] raise [ValueError], whatever the primitive
    integral is. *)
Theorem apply_contraction_ragged xyz_0 xyz_1 li lj csi esi csj esj :
  length csj <> length csi \/ length esi <> length csi \/
  length esj <> length csi \/ csi = [] ->
  apply_contraction comps osm xyz_0 xyz_1 li lj (csi, esi) (csj, esj)
  = Raise ValueError.
Proof.
  intros Hbad. unfold apply_contraction, np_stack. cbn [forallb].
  destruct (Nat.eqb_spec (length csj) (length csi)) as [Hcj|_];
    [|reflexivity].
  destruct (Nat.eqb_spec (length esi) (length csi)) as [Hei|_];
    [|reflexivity].
  destruct (Nat.eqb_spec (length esj) (length csi)) as [Hej|_];
    [|reflexivity].
  destruct Hbad as [?|[?|[?| ->]]]; try contradiction.
  reflexivity.
Qed.

End ContractionEdges.

(** ** The primitive pair, in exact arithmetic *)

Section PrimitiveFacts.
Local Open Scope R_scope.
Variable comps : string -> nat -> Z.
Variable osm : R -> R -> R -> R -> R -> R -> R -> R -> R.

Lemma pi_over_negative (s : R) : s <> 0 -> (PI / s < 0 <-> s < 0).
Proof.
  intros Hs. pose proof PI_RGT_0 as Hpi. split.
  - intros Hneg. destruct (Rlt_dec s 0) as [|Hge]; [assumption|exfalso].
    assert (0 < PI / s) by (apply Rdiv_lt_0_compat; lra). lra.
  - intros Hlt. unfold Rdiv.
    assert (/ s < 0) by (by apply Rinv_lt_0_compat). nra.
Qed.

(** X6. For two exponents whose sum is not zero, [sab_unfolded] raises
    exactly when the sum is negative, and the exception is the
    [ValueError] of [math.sqrt]; it returns a value exactly when the sum
    is positive. At a sum of zero the code divides by a zero whose sign
    decides between the two, and the real numbers have no such sign. *)
Theorem sab_unfolded_domain r1 r2 ls1 ls2 c1 c2 e1 e2 :
  e1 + e2 <> 0 ->
  (sab_unfolded osm r1 r2 ls1 ls2 c1 c2 e1 e2 = Raise ValueError
   <-> e1 + e2 < 0) /\
  (is_ok (sab_unfolded osm r1 r2 ls1 ls2 c1 c2 e1 e2) = true
   <-> 0 < e1 + e2).
Proof.
  intros Hnz. unfold sab_unfolded. simpl.
  destruct (Rlt_dec (PI / (e1 + e2)) 0) as [Hneg|Hpos]; simpl.
  - apply (proj1 (pi_over_negative _ Hnz)) in Hneg.
    split; split; intros Hx; try reflexivity; try discriminate; lra.
  - assert (Hs : 0 < e1 + e2).
    { destruct (Rlt_dec 0 (e1 + e2)) as [|Hn]; [assumption|].
      exfalso. apply Hpos, (pi_over_negative _ Hnz). lra. }
    split; split; intros Hx; try reflexivity; try discriminate;
      try assumption; lra.
Qed.

(** When the primitive integral is unchanged by the exchange of its two
    centres (the two distances to the product centre and the two angular
    components), [sab_unfolded] is unchanged by the exchange of the two
    primitives with their positions and orbital components. *)
Lemma sab_unfolded_swap r1 r2 ls1 ls2 c1 c2 e1 e2 :
  (forall p s a b rp l1 l2 o,
      osm p s a b rp l1 l2 o = osm p s b a rp l2 l1 o) ->
  sab_unfolded osm r2 r1 ls2 ls1 c2 c1 e2 e1
  = sab_unfolded osm r1 r2 ls1 ls2 c1 c2 e1 e2.
Proof.
  intros Hsym. unfold sab_unfolded. simpl.
  rewrite (Rplus_comm e2 e1).
  destruct (Rlt_dec (PI / (e1 + e2)) 0); [reflexivity|]. simpl.
  destruct r1 as [x1 y1 z1], r2 as [x2 y2 z2].
  destruct ls1 as [a1 b1 g1], ls2 as [a2 b2 g2]. simpl.
  f_equal.
  rewrite (Hsym _ _ _ _ _ a2 a1), (Hsym _ _ _ _ _ b2 b1),
    (Hsym _ _ _ _ _ g2 g1).
  rewrite (Rmult_comm e2 e1), (Rmult_comm c2 c1).
  rewrite (Rplus_comm (e2 * x2) (e1 * x1)), (Rplus_comm (e2 * y2) (e1 * y1)),
    (Rplus_comm (e2 * z2) (e1 * z1)).
  replace ((x2 - x1) * (x2 - x1)) with ((x1 - x2) * (x1 - x2)) by ring.
  replace ((y2 - y1) * (y2 - y1)) with ((y1 - y2) * (y1 - y2)) by ring.
  replace ((z2 - z1) * (z2 - z1)) with ((z1 - z2) * (z1 - z2)) by ring.
  reflexivity.
Qed.

(** The same for the contraction of two basis functions. *)
Lemma apply_contraction_swap xyz_0 xyz_1 li lj ps_i ps_j :
  (forall p s a b rp l1 l2 o,
      osm p s a b rp l1 l2 o = osm p s b a rp l2 l1 o) ->
  apply_contraction comps osm xyz_1 xyz_0 lj li ps_j ps_i
  = apply_contraction comps osm xyz_0 xyz_1 li lj ps_i ps_j.
Proof.
  intros Hsym. destruct ps_i as [csi esi], ps_j as [csj esj].
  unfold apply_contraction, np_stack. cbn [forallb].
  destruct (Nat.eqb_spec (length csj) (length csi)) as [Hcj|Hcj];
    destruct (Nat.eqb_spec (length esi) (length csi)) as [Hei|Hei];
    destruct (Nat.eqb_spec (length esj) (length csi)) as [Hej|Hej];
    destruct (Nat.eqb_spec (length csi) (length csj)) as [Hci|Hci];
    destruct (Nat.eqb_spec (length esj) (length csj)) as [Hej'|Hej'];
    destruct (Nat.eqb_spec (length esi) (length csj)) as [Hei'|Hei'];
    try lia; try reflexivity.
  cbn [andb mbind result_bind]. unfold apply_along_columns.
  cbn [ncols nrows]. rewrite Hcj.
  destruct (length csi =? 0)%nat; [reflexivity|].
  erewrite traverse_ext; [reflexivity|].
  intros k _. unfold entry. cbn -[sab_unfolded].
  apply sab_unfolded_swap, Hsym.
Qed.

(** X7. When the primitive integral is unchanged by the exchange of its
    two centres, so is the contraction: [apply_contraction] on the second
    function and position against the first equals [apply_contraction] on
    the first against the second, exceptions included. *)
Theorem apply_contraction_exchange xyz_0 xyz_1 li lj ps_i ps_j :
  (forall p s a b rp l1 l2 o,
      osm p s a b rp l1 l2 o = osm p s b a rp l2 l1 o) ->
  apply_contraction comps osm xyz_1 xyz_0 lj li ps_j ps_i
  = apply_contraction comps osm xyz_0 xyz_1 li lj ps_i ps_j.
Proof. apply apply_contraction_swap. Qed.

End PrimitiveFacts.

(** ** The rows of the overlap matrix *)

Section RowFacts.
Context {F : Type} `{Scalar F}.
Variable comps : string -> nat -> Z.
Variable osm : F -> F -> F -> F -> F -> F -> F -> F -> F.
Variables uninit uninit' : nat -> F.

(** The loop of [calc_overlap_row] does not look at the cells it has not
    yet written, when the blocks that remain fill the row. *)
Lemma overlap_row_loop_initial d xyz_0 cgf_i mol1 row row' acc :
  length row = length row' ->
  take acc row = take acc row' ->
  (Z.of_nat acc + blocks_total d mol1 = Z.of_nat (length row))%Z ->
  overlap_row_loop comps osm d xyz_0 cgf_i mol1 row acc
  = overlap_row_loop comps osm d xyz_0 cgf_i mol1 row' acc.
Proof.
  revert row row' acc.
  induction mol1 as [|a rest IH]; simpl; intros row row' acc Hlen Htake Hfill.
  - f_equal. rewrite <- (take_ge row acc), <- (take_ge row' acc) by lia.
    assumption.
  - unfold block_size in Hfill. unfold dict_get.
    destruct (d !! symbol a) as [cgfs|]; [simpl|reflexivity].
    destruct (calc_overlap_atom _ _ _ _ _ cgfs) as [vs|e] eqn:Hvs;
      [simpl|reflexivity].
    pose proof (traverse_length _ _ _ Hvs) as Hl.
    pose proof (blocks_total_nonneg d rest) as Hnn.
    rewrite !slice_assign_fits by lia. simpl.
    apply IH.
    + rewrite !length_app, !length_take, !length_drop. lia.
    + rewrite <- Hl.
      rewrite !(app_assoc (take acc _) vs).
      rewrite !take_app_length' by (rewrite length_app, length_take; lia).
      by rewrite Htake.
    + rewrite !length_app, length_take, length_drop. lia.
Qed.


(** X8. When the basis functions of the second geometry are as many as the
    dimension, the row [calc_overlap_row] returns is the blocks of its
    atoms one after the other, each block the contractions of the row's
    function with the functions of that atom, so the row has the length of
    the dimension and holds nothing of what [np.empty] left. *)
Theorem calc_overlap_row_blocks d mol1 dim xyz_0 cgf_i row :
  blocks_total d mol1 = Z.of_nat dim ->
  calc_overlap_row comps osm uninit d mol1 dim xyz_0 cgf_i = Ok row ->
  length row = dim /\
  calc_overlap_row comps osm uninit' d mol1 dim xyz_0 cgf_i = Ok row /\
  exists blocks,
    traverse (fun a => cgfs ← dict_get d (symbol a);
                       calc_overlap_atom comps osm xyz_0 cgf_i (xyz a) cgfs)
             mol1 = Ok blocks /\
    row = concat blocks.
Proof.
  intros Hdim Hrow. split; [|split].
  - eapply calc_overlap_row_length, Hrow.
  - rewrite <- Hrow. unfold calc_overlap_row.
    apply overlap_row_loop_initial.
    + unfold np_empty. by rewrite !length_map.
    + reflexivity.
    + unfold np_empty. rewrite length_map, length_seq. lia.
  - eapply calc_overlap_row_concat; eassumption.
Qed.



(** The rows of the matrix built without transformation. *)
Lemma builder_row d dim mol0 mol1 S i :
  calcOverlapMtx comps osm uninit None d dim mol0 mol1 = Ok S ->
  blocks_total d mol1 = Z.of_nat dim -> (i < dim)%nat ->
  exists xyz_0 cgf_i blocks,
    lookup_cgf mol0 d (Z.of_nat i) = Ok (xyz_0, cgf_i) /\
    traverse (fun a => cgfs ← dict_get d (symbol a);
                       calc_overlap_atom comps osm xyz_0 cgf_i (xyz a) cgfs)
             mol1 = Ok blocks /\
    rows S !! i = Some (concat blocks).
Proof.
  unfold calcOverlapMtx. intros HS Hdim Hi.
  apply bind_Ok_inv in HS as (xss & Hxss & HS).
  apply bind_Ok_inv in HS as (suv & Hsuv & HS).
  inversion HS; subst S. clear HS.
  apply np_stack_Ok in Hsuv as (Hrows & _ & _).
  assert (Hri : range dim !! i = Some (Z.of_nat i)).
  { unfold range. rewrite list_lookup_fmap, lookup_seq_lt by assumption.
    reflexivity. }
  destruct (traverse_lookup _ _ _ i _ Hxss Hri) as (row & Hrow & Hf).
  unfold apply_nested in Hf. apply bind_Ok_inv in Hf as ([x0 gi] & Hp & Hf).
  simpl in Hf.
  destruct (calc_overlap_row_concat _ _ _ _ _ _ _ _ _ Hdim Hf)
    as (blocks & Hblocks & ->).
  exists x0, gi, blocks. rewrite Hrows. auto.
Qed.

(** X11. Row [i] of the matrix the builder returns without transformation
    is computed from the position and function that [lookup_cgf] gives
    for [i] in the first geometry, against every function of every atom
    of the second geometry, in the order of its atoms. *)
Theorem calcOverlapMtx_rows d dim mol0 mol1 S i :
  calcOverlapMtx comps osm uninit None d dim mol0 mol1 = Ok S ->
  blocks_total d mol1 = Z.of_nat dim -> (i < dim)%nat ->
  exists xyz_0 cgf_i blocks,
    lookup_cgf mol0 d (Z.of_nat i) = Ok (xyz_0, cgf_i) /\
    traverse (fun a => cgfs ← dict_get d (symbol a);
                       calc_overlap_atom comps osm xyz_0 cgf_i (xyz a) cgfs)
             mol1 = Ok blocks /\
    rows S !! i = Some (concat blocks).
Proof. apply builder_row. Qed.

(** X12. When the rows are built and the number of columns of the
    transformation is not the dimension, the builder raises [ValueError],
    from [np.dot]. *)
Theorem calcOverlapMtx_transform_shape T d dim mol0 mol1 S :
  calcOverlapMtx comps osm uninit None d dim mol0 mol1 = Ok S ->
  ncols T <> dim ->
  calcOverlapMtx comps osm uninit (Some T) d dim mol0 mol1 = Raise ValueError.
Proof.
  intros HS HT.
  destruct (calcOverlapMtx_shape _ _ _ _ _ _ _ _ _ HS) as [HSr HSc].
  simpl in HSr, HSc.
  rewrite transformed_builder_unfold, HS. cbn [mbind result_bind].
  assert (Hd : np_dot S (np_transpose T) = Raise ValueError).
  { unfold np_dot. cbn [nrows np_transpose build_matrix]. rewrite HSc.
    destruct (Nat.eqb_spec dim (ncols T)); [congruence|reflexivity]. }
  by rewrite Hd.
Qed.

End RowFacts.

(** ** Geometries of one element *)

Section OneElement.
Context {F : Type}.
Implicit Types (d : gmap string (list (CGF F))) (atoms : list (AtomXYZ F)).

Lemma blocks_total_one_element d atoms s L :
  Forall (fun a => symbol a = s) atoms -> d !! s = Some L ->
  blocks_total d atoms = Z.of_nat (length atoms * length L).
Proof.
  intros Hall Hs. induction Hall as [|a l Ha _ IH]; [reflexivity|].
  simpl. unfold block_size. rewrite Ha, Hs, IH. lia.
Qed.

Lemma count_cgfs_one_element d atoms s L :
  Forall (fun a => symbol a = s) atoms -> d !! s = Some L ->
  count_cgfs d atoms = Ok (length atoms * length L)%nat.
Proof.
  intros Hall Hs. induction Hall as [|a l Ha _ IH]; [reflexivity|].
  simpl. unfold dict_get. rewrite lookup_fmap, Ha, Hs. simpl.
  by rewrite IH.
Qed.

(** The lookup on a geometry of one element, by atom and function. *)
Lemma lookup_cgf_one_element d atoms s L k p a g :
  Forall (fun a => symbol a = s) atoms -> d !! s = Some L ->
  atoms !! k = Some a -> L !! p = Some g ->
  lookup_cgf atoms d (Z.of_nat (k * length L + p)) = Ok (xyz a, g).
Proof.
  intros Hall Hs Hk Hp.
  pose proof (lookup_lt_Some _ _ _ Hk) as Hklt.
  pose proof (lookup_lt_Some _ _ _ Hp) as Hplt.
  destruct (blocks_total_single_symbol d atoms s L Hall Hs) as [Hdom _].
  destruct atoms as [|a0 rest]; [discriminate|].
  assert (Hs0 : d !! symbol a0 = Some L) by (inversion Hall; subst; done).
  assert (HL : L <> []) by (intros ->; simpl in Hplt; lia).
  destruct (lookup_cgf_first_symbol d a0 rest L
              (Z.of_nat (k * length L + p)) Hdom Hs0 HL)
    as (pre & b & post & Heq & Hrange & Hres).
  { rewrite (blocks_total_one_element d _ s L Hall Hs). nia. }
  assert (Hpre : Forall (fun a => symbol a = s) pre).
  { rewrite Heq in Hall. by apply Forall_app in Hall as [? _]. }
  assert (Hb : symbol b = s).
  { rewrite Heq in Hall. apply Forall_app in Hall as [_ Hall].
    by inversion Hall. }
  rewrite (blocks_total_one_element d pre s L Hpre Hs) in Hrange, Hres.
  unfold block_size in Hrange. rewrite Hb, Hs in Hrange.
  assert (Hlen : length pre = k) by nia.
  assert (Hab : b = a).
  { rewrite Heq in Hk. rewrite lookup_app_r in Hk by lia.
    rewrite Hlen, Nat.sub_diag in Hk. simpl in Hk. congruence. }
  rewrite Hres, Hlen, Hab.
  rewrite (py_index_in_range L _ g); [reflexivity|lia|].
  replace (Z.to_nat _) with p by lia. assumption.
Qed.

Lemma concat_uniform_lookup {A} (blocks : list (list A)) (n k q : nat)
    (blk : list A) :
  Forall (fun b => length b = n) blocks ->
  blocks !! k = Some blk -> (q < n)%nat ->
  concat blocks !! (k * n + q)%nat = blk !! q.
Proof.
  intros Hall. revert k.
  induction Hall as [|b l Hb _ IH]; intros k Hk Hq; [discriminate|].
  destruct k as [|k]; simpl in *.
  - inversion Hk; subst. by rewrite lookup_app_l by lia.
  - rewrite lookup_app_r by lia.
    replace (n + k * n + q - length b)%nat with (k * n + q)%nat by lia.
    by apply IH.
Qed.

End OneElement.

Section OneElementOverlap.
Context {F : Type} `{Scalar F}.
Variable comps : string -> nat -> Z.
Variable osm : F -> F -> F -> F -> F -> F -> F -> F -> F.
Variable uninit : nat -> F.

Lemma blocks_one_element d (mol1 : list (AtomXYZ F)) s L xyz_0 cgf_i blocks :
  Forall (fun a => symbol a = s) mol1 -> d !! s = Some L ->
  traverse (fun a => cgfs ← dict_get d (symbol a);
                     calc_overlap_atom comps osm xyz_0 cgf_i (xyz a) cgfs)
           mol1 = Ok blocks ->
  Forall (fun blk => length blk = length L) blocks /\
  forall k b, mol1 !! k = Some b ->
    exists blk, blocks !! k = Some blk /\
      calc_overlap_atom comps osm xyz_0 cgf_i (xyz b) L = Ok blk.
Proof.
  intros Hall Hs Hblocks.
  assert (Hat : forall k b, mol1 !! k = Some b ->
            exists blk, blocks !! k = Some blk /\
              calc_overlap_atom comps osm xyz_0 cgf_i (xyz b) L = Ok blk).
  { intros k b Hb.
    destruct (traverse_lookup _ _ _ k b Hblocks Hb) as (blk & Hblk & Hf).
    exists blk. split; [assumption|].
    rewrite Forall_forall in Hall.
    assert (Hsb : symbol b = s)
      by (apply Hall; eapply list_elem_of_lookup_2; eassumption).
    unfold dict_get in Hf. by rewrite Hsb, Hs in Hf. }
  split; [|exact Hat].
  apply Forall_lookup. intros k blk Hblk.
  pose proof (traverse_length _ _ _ Hblocks) as Hlen.
  destruct (lookup_lt_is_Some_2 mol1 k) as [b Hb].
  { rewrite <- Hlen. eapply lookup_lt_Some, Hblk. }
  destruct (Hat k b Hb) as (blk' & Hblk' & Hcalc).
  rewrite Hblk in Hblk'. inversion Hblk'; subst blk'.
  unfold calc_overlap_atom in Hcalc. by apply traverse_length in Hcalc.
Qed.

(** On geometries of one element, the entry of the raw overlap matrix in
    the row of function [p] of atom [ki] and the column of function [q]
    of atom [kj] is the contraction of these two functions at the
    positions of the two atoms. *)
Lemma builder_entry_one_element d dim mol0 mol1 s L S ki kj p q a b gp gq :
  calcOverlapMtx comps osm uninit None d dim mol0 mol1 = Ok S ->
  Forall (fun a => symbol a = s) mol0 ->
  Forall (fun a => symbol a = s) mol1 ->
  d !! s = Some L ->
  dim = (length mol1 * length L)%nat ->
  mol0 !! ki = Some a -> mol1 !! kj = Some b ->
  L !! p = Some gp -> L !! q = Some gq ->
  (ki * length L + p < dim)%nat ->
  exists v,
    apply_contraction comps osm (xyz a) (xyz b) (orbType gp) (orbType gq)
      (primitives gp) (primitives gq) = Ok v /\
    entry S (ki * length L + p) (kj * length L + q) = v.
Proof.
  intros HS Hall0 Hall1 Hs Hdim Ha Hb Hp Hq Hi.
  assert (Htot : blocks_total d mol1 = Z.of_nat dim).
  { rewrite (blocks_total_one_element d mol1 s L Hall1 Hs). by rewrite Hdim. }
  destruct (builder_row comps osm uninit d dim mol0 mol1 S _ HS Htot Hi)
    as (x0 & gi & blocks & Hlk & Hblocks & Hrow).
  rewrite (lookup_cgf_one_element d mol0 s L ki p a gp Hall0 Hs Ha Hp) in Hlk.
  inversion Hlk; subst x0 gi. clear Hlk.
  destruct (blocks_one_element d mol1 s L _ _ _ Hall1 Hs Hblocks)
    as [Huni Hat].
  destruct (Hat kj b Hb) as (blk & Hblk & Hcalc).
  unfold calc_overlap_atom in Hcalc.
  destruct (traverse_lookup _ _ _ q gq Hcalc Hq) as (v & Hv & HAC).
  exists v. split; [exact HAC|].
  pose proof (lookup_lt_Some _ _ _ Hq) as Hqlt.
  pose proof (concat_uniform_lookup blocks (length L) kj q blk Huni Hblk Hqlt)
    as Hcat.
  rewrite Hv in Hcat.
  unfold entry. rewrite (nth_lookup_Some _ _ _ _ Hrow).
  by rewrite (nth_lookup_Some _ _ _ _ Hcat).
Qed.

(** X13. On two geometries of one element, with as many basis functions
    as the dimension, the entry of the raw overlap matrix at row
    [ki * n + p] and column [kj * n + q], where [n] is the number of
    functions of the element, is [apply_contraction] on function [p] at
    the position of atom [ki] of the first geometry and function [q] at
    the position of atom [kj] of the second. *)
Theorem calcOverlapMtx_entry_one_element
    d dim mol0 mol1 s L S ki kj p q a b gp gq :
  calcOverlapMtx comps osm uninit None d dim mol0 mol1 = Ok S ->
  Forall (fun a => symbol a = s) mol0 ->
  Forall (fun a => symbol a = s) mol1 ->
  d !! s = Some L ->
  dim = (length mol1 * length L)%nat ->
  mol0 !! ki = Some a -> mol1 !! kj = Some b ->
  L !! p = Some gp -> L !! q = Some gq ->
  (ki * length L + p < dim)%nat ->
  exists v,
    apply_contraction comps osm (xyz a) (xyz b) (orbType gp) (orbType gq)
      (primitives gp) (primitives gq) = Ok v /\
    entry S (ki * length L + p) (kj * length L + q) = v.
Proof. apply builder_entry_one_element. Qed.

End OneElementOverlap.

(** ** The overlap of a geometry of one element with itself *)

Section OneElementSymmetry.
Local Open Scope R_scope.
Variable comps : string -> nat -> Z.
Variable osm : R -> R -> R -> R -> R -> R -> R -> R -> R.
Variable uninit : nat -> R.

Lemma builder_symmetric_one_element d mol s L S :
  (forall p s a b rp l1 l2 o,
      osm p s a b rp l1 l2 o = osm p s b a rp l2 l1 o) ->
  Forall (fun a => symbol a = s) mol -> d !! s = Some L ->
  calcOverlapMtx comps osm uninit None d (length mol * length L) mol mol
  = Ok S ->
  forall i j, (i < length mol * length L)%nat ->
              (j < length mol * length L)%nat ->
              entry S i j = entry S j i.
Proof.
  intros Hsym Hall Hs HS i j Hi Hj.
  assert (Hn : (0 < length L)%nat) by nia.
  assert (Hsplit : forall x, (x < length mol * length L)%nat ->
            exists k p a g, x = (k * length L + p)%nat /\
              mol !! k = Some a /\ L !! p = Some g).
  { intros x Hx.
    assert (Hk : (x / length L < length mol)%nat)
      by (apply Nat.Div0.div_lt_upper_bound; lia).
    assert (Hp : (x mod length L < length L)%nat) by (apply Nat.mod_upper_bound; lia).
    destruct (lookup_lt_is_Some_2 mol _ Hk) as [a Ha].
    destruct (lookup_lt_is_Some_2 L _ Hp) as [g Hg].
    exists (x / length L)%nat, (x mod length L)%nat, a, g. repeat split; try assumption.
    pose proof (Nat.div_mod_eq x (length L)). lia. }
  destruct (Hsplit i Hi) as (ki & p & a & gp & -> & Ha & Hp).
  destruct (Hsplit j Hj) as (kj & q & b & gq & -> & Hb & Hq).
  destruct (builder_entry_one_element comps osm uninit d _ mol mol s L S
              ki kj p q a b gp gq HS Hall Hall Hs eq_refl Ha Hb Hp Hq Hi)
    as (v & Hv & ->).
  destruct (builder_entry_one_element comps osm uninit d _ mol mol s L S
              kj ki q p b a gq gp HS Hall Hall Hs eq_refl Hb Ha Hq Hp Hj)
    as (v' & Hv' & ->).
  rewrite (apply_contraction_swap comps osm _ _ _ _ _ _ Hsym) in Hv'.
  congruence.
Qed.


End OneElementSymmetry.

(** ** When the builder returns *)

Section BuilderReturns.
Local Open Scope R_scope.
Variable comps : string -> nat -> Z.
Variable osm : R -> R -> R -> R -> R -> R -> R -> R -> R.
Variable uninit : nat -> R.

Lemma traverse_Ok {A B} (f : A -> result B) (l : list A) :
  (forall x, In x l -> exists y, f x = Ok y) ->
  exists ys, traverse f l = Ok ys.
Proof.
  induction l as [|x l IH]; intros Hf; [by exists []|].
  destruct (Hf x) as [y Hy]; [by left|].
  destruct IH as [ys Hys]; [intros z Hz; apply Hf; by right|].
  exists (y :: ys). simpl. rewrite Hy. simpl. by rewrite Hys.
Qed.

Lemma contraction_Ok m L xyz_0 xyz_1 gp gq :
  contractible m L -> (0 < m)%nat -> In gp L -> In gq L ->
  exists v,
    apply_contraction comps osm xyz_0 xyz_1 (orbType gp) (orbType gq)
      (primitives gp) (primitives gq) = Ok v.
Proof.
  intros HL Hm Hp Hq. unfold contractible in HL.
  rewrite Forall_forall in HL.
  destruct (HL gp) as (Hcp & Hep & Hpos_p); [by apply list_elem_of_In|].
  destruct (HL gq) as (Hcq & Heq & Hpos_q); [by apply list_elem_of_In|].
  destruct (primitives gp) as [csi esi], (primitives gq) as [csj esj].
  cbn [fst snd] in *.
  rewrite contraction_by_position
    by first [congruence | destruct csi; [simpl in Hcp; lia | discriminate]].
  destruct (traverse_Ok
              (fun k => sab_unfolded osm xyz_0 xyz_1
                          (orb_components comps (orbType gp))
                          (orb_components comps (orbType gq))
                          (nth k csi (of_Z 0)) (nth k csj (of_Z 0))
                          (nth k esi (of_Z 0)) (nth k esj (of_Z 0)))
              (seq 0 (length csi))) as [vals Hvals].
  - intros k Hk%in_seq. apply sab_unfolded_Ok.
    rewrite Forall_forall in Hpos_p, Hpos_q.
    assert (0 < nth k esi (of_Z 0)).
    { apply Hpos_p, list_elem_of_In, nth_In. lia. }
    assert (0 < nth k esj (of_Z 0)).
    { apply Hpos_q, list_elem_of_In, nth_In. lia. }
    lra.
  - rewrite Hvals. simpl. eauto.
Qed.

Lemma row_loop_Ok d s L m xyz_0 cgf_i mol1 row acc :
  contractible m L -> (0 < m)%nat -> In cgf_i L ->
  Forall (fun a => symbol a = s) mol1 -> d !! s = Some L ->
  (acc + length mol1 * length L = length row)%nat ->
  exists row',
    overlap_row_loop comps osm d xyz_0 cgf_i mol1 row acc = Ok row'.
Proof.
  intros HL Hm Hi Hall Hs. revert row acc.
  induction Hall as [|a rest Ha _ IH]; intros row acc Hfill; [by exists row|].
  simpl. unfold dict_get. rewrite Ha, Hs. simpl.
  destruct (traverse_Ok
              (fun cgf_j => apply_contraction comps osm xyz_0 (xyz a)
                              (orbType cgf_i) (orbType cgf_j)
                              (primitives cgf_i) (primitives cgf_j)) L)
    as [vs Hvs].
  { intros gq Hq. by apply (contraction_Ok m L). }
  unfold calc_overlap_atom. rewrite Hvs. simpl.
  pose proof (traverse_length _ _ _ Hvs) as Hlen.
  simpl in Hfill.
  rewrite slice_assign_fits by lia. simpl.
  apply IH. rewrite !length_app, length_take, length_drop. lia.
Qed.

Lemma np_stack_uniform (xss : list (list R)) (c : nat) :
  xss <> [] -> Forall (fun r => length r = c) xss ->
  exists M, np_stack xss = Ok M.
Proof.
  intros Hne Hall. destruct xss as [|r rest]; [done|].
  inversion Hall as [|? ? Hr Hrest]; subst. simpl.
  assert (Hb : forallb (fun r' => (length r' =? length r)%nat) rest = true).
  { apply forallb_forall. intros r' Hr'. apply Nat.eqb_eq.
    rewrite Forall_forall in Hrest. apply Hrest. by apply list_elem_of_In. }
  rewrite Hb. eauto.
Qed.

Lemma builder_returns_one_element d s L m mol0 mol1 :
  contractible m L -> (0 < m)%nat -> L <> [] -> mol1 <> [] ->
  Forall (fun a => symbol a = s) mol0 ->
  Forall (fun a => symbol a = s) mol1 ->
  d !! s = Some L -> length mol0 = length mol1 ->
  exists S,
    calcOverlapMtx comps osm uninit None d (length mol1 * length L) mol0 mol1
    = Ok S.
Proof.
  intros HL Hm HLne Hne Hall0 Hall1 Hs Hlen. unfold calcOverlapMtx.
  set (dim := (length mol1 * length L)%nat).
  assert (Hdim : (0 < dim)%nat).
  { unfold dim. destruct mol1; [done|]. destruct L; [done|]. simpl. lia. }
  destruct (traverse_Ok
              (apply_nested (calc_overlap_row comps osm uninit d mol1 dim)
                 (lookup_cgf mol0 d)) (range dim)) as [xss Hxss].
  { intros i Hi. unfold range in Hi. apply in_map_iff in Hi as (x & <- & Hx).
    apply in_seq in Hx.
    assert (Hk : (x / length L < length mol0)%nat).
    { rewrite Hlen. apply Nat.Div0.div_lt_upper_bound. unfold dim in Hx. lia. }
    assert (Hp : (x mod length L < length L)%nat).
    { apply Nat.mod_upper_bound. destruct L; [done|simpl; lia]. }
    destruct (lookup_lt_is_Some_2 mol0 _ Hk) as [a Ha].
    destruct (lookup_lt_is_Some_2 L _ Hp) as [g Hg].
    assert (Hx' : x = (x / length L * length L + x mod length L)%nat).
    { pose proof (Nat.div_mod_eq x (length L)). lia. }
    unfold apply_nested.
    replace (Z.of_nat x)
      with (Z.of_nat (x / length L * length L + x mod length L)) by lia.
    rewrite (lookup_cgf_one_element d mol0 s L _ _ a g Hall0 Hs Ha Hg).
    simpl. unfold calc_overlap_row.
    apply (row_loop_Ok d s L m); try assumption.
    - eapply list_elem_of_In, list_elem_of_lookup_2, Hg.
    - unfold np_empty. rewrite length_map, length_seq. reflexivity. }
  rewrite Hxss. simpl.
  destruct (np_stack_uniform xss dim) as [M HM].
  - pose proof (traverse_length _ _ _ Hxss) as Hl.
    unfold range in Hl. rewrite length_map, length_seq in Hl.
    destruct xss; [simpl in Hl; lia|done].
  - apply Forall_lookup. intros k row Hrow.
    pose proof (traverse_length _ _ _ Hxss) as Hl.
    destruct (lookup_lt_is_Some_2 (range dim) k) as [i Hi].
    { rewrite <- Hl. eapply lookup_lt_Some, Hrow. }
    destruct (traverse_lookup _ _ _ k i Hxss Hi) as (row' & Hrow' & Hf).
    rewrite Hrow in Hrow'. inversion Hrow'; subst row'.
    unfold apply_nested in Hf. apply bind_Ok_inv in Hf as (p & _ & Hf).
    eapply calc_overlap_row_length, Hf.
  - rewrite HM. simpl. eauto.
Qed.

(** X15. On two geometries of one element with the same number of atoms,
    at least one, over a basis whose functions, at least one, all have the
    same positive number of primitives with positive exponents, the
    builder raises nothing: it returns a matrix. *)
Theorem calcOverlapMtx_returns_one_element d s L m mol0 mol1 :
  contractible m L -> (0 < m)%nat -> L <> [] -> mol1 <> [] ->
  Forall (fun a => symbol a = s) mol0 ->
  Forall (fun a => symbol a = s) mol1 ->
  d !! s = Some L -> length mol0 = length mol1 ->
  exists S,
    calcOverlapMtx comps osm uninit None d (length mol1 * length L) mol0 mol1
    = Ok S /\ has_shape S (length mol1 * length L) (length mol1 * length L).
Proof.
  intros HL Hm HLne Hne Hall0 Hall1 Hs Hlen.
  destruct (builder_returns_one_element d s L m mol0 mol1) as [S HS];
    try assumption.
  exists S. split; [assumption|].
  apply (calcOverlapMtx_shape _ _ _ _ _ _ _ _ _ HS).
Qed.

End BuilderReturns.

(** ** The estimator on any input *)

Section EstimatorEdges.
Local Open Scope R_scope.
Variable comps : string -> nat -> Z.
Variable osm : R -> R -> R -> R -> R -> R -> R -> R -> R.
Variable uninit : nat -> R.

(** X16. For a molecule of one element, of any number of atoms, that does
    not move over the three frames and keeps its coefficients, over a
    basis whose functions all have the same positive number of primitives
    with positive exponents, the coupling is the matrix of zeros, when the
    primitive integral is unchanged by the exchange of its two centres. *)
Theorem coupling_static_one_element d mol s L m C n dt :
  (forall p s a b rp l1 l2 o,
      osm p s a b rp l1 l2 o = osm p s b a rp l2 l1 o) ->
  contractible m L -> (0 < m)%nat -> L <> [] -> mol <> [] ->
  Forall (fun a => symbol a = s) mol -> d !! s = Some L ->
  has_shape C (length mol * length L) n -> dt <> 0 ->
  calculateCoupling3Points comps osm uninit (mol, mol, mol) (C, C, C) d dt None
  = Ok (zeros n n).
Proof.
  intros Hsym HL Hm HLne Hne Hall Hs HC Hdt.
  destruct (builder_returns_one_element comps osm uninit d s L m mol mol)
    as [S HS]; try assumption; [reflexivity|].
  apply (coupling_static comps osm uninit mol C d dt None
           (length mol * length L)%nat S n); try assumption.
  - by apply (count_cgfs_one_element d mol s L).
  - simpl.
    by apply (builder_symmetric_one_element comps osm uninit d mol s L S).
Qed.

Lemma count_cgfs_unknown (d : gmap string (list (CGF R))) pre a post :
  d !! symbol a = None ->
  count_cgfs d (pre ++ a :: post) = Raise KeyError.
Proof.
  intros Ha. induction pre as [|b pre IH]; simpl.
  - unfold dict_get. by rewrite lookup_fmap, Ha.
  - unfold dict_get. rewrite lookup_fmap.
    destruct (d !! symbol b); [simpl|reflexivity]. by rewrite IH.
Qed.

(** X17. A first geometry with an atom whose symbol is not in the basis
    makes the estimator raise [KeyError], before any overlap is
    computed. *)
Theorem coupling_unknown_symbol pre a post g1 g2 coefficients d dt T :
  d !! symbol a = None ->
  calculateCoupling3Points comps osm uninit (pre ++ a :: post, g1, g2)
    coefficients d dt T
  = Raise KeyError.
Proof.
  intros Ha. destruct coefficients as [[C0 C1] C2].
  unfold calculateCoupling3Points. rewrite !map_coordinates_to_numpy.
  by rewrite count_cgfs_unknown.
Qed.

(** X18. A first geometry without any basis function, the empty geometry
    for one, makes the estimator raise [ValueError]: the builder stacks an
    empty list of rows. *)
Theorem coupling_no_basis_function g0 g1 g2 coefficients d dt T :
  count_cgfs d g0 = Ok 0%nat ->
  calculateCoupling3Points comps osm uninit (g0, g1, g2) coefficients d dt T
  = Raise ValueError.
Proof.
  intros Hdim. destruct coefficients as [[C0 C1] C2].
  unfold calculateCoupling3Points. rewrite !map_coordinates_to_numpy.
  rewrite Hdim. reflexivity.
Qed.

(** X19. When the two overlap matrices are built and a coefficient matrix
    has not as many rows as the overlap has columns, the estimator raises
    [ValueError], from [np.dot]. *)
Theorem coupling_coefficient_rows g0 g1 g2 C0 C1 C2 d dt T dim S0 S1 :
  count_cgfs d g0 = Ok dim ->
  calcOverlapMtx comps osm uninit T d dim g0 g1 = Ok S0 ->
  calcOverlapMtx comps osm uninit T d dim g1 g2 = Ok S1 ->
  nrows C1 <> overlap_dim T dim ->
  calculateCoupling3Points comps osm uninit (g0, g1, g2) (C0, C1, C2) d dt T
  = Raise ValueError.
Proof.
  intros Hdim HS0 HS1 HC1.
  destruct (calcOverlapMtx_shape _ _ _ _ _ _ _ _ _ HS0) as [_ HS0c].
  unfold calculateCoupling3Points. rewrite !map_coordinates_to_numpy.
  rewrite Hdim. cbn [mbind result_bind]. rewrite HS0. cbn [mbind result_bind].
  rewrite HS1. cbn [mbind result_bind].
  assert (H0 : calculate_overlap S0 C0 C1 = Raise ValueError).
  { unfold calculate_overlap, np_dot. rewrite HS0c.
    destruct (Nat.eqb_spec (overlap_dim T dim) (nrows C1));
      [congruence|reflexivity]. }
  by rewrite H0.
Qed.

(** X20. With a time step of zero, overlap matrices that are built and
    coefficient matrices of their dimension, the estimator raises
    [ZeroDivisionError]: the projections are computed first and then
    lost. *)
Theorem coupling_zero_step_raises g0 g1 g2 C0 C1 C2 d T dim S0 S1 n0 n1 n2 :
  count_cgfs d g0 = Ok dim ->
  calcOverlapMtx comps osm uninit T d dim g0 g1 = Ok S0 ->
  calcOverlapMtx comps osm uninit T d dim g1 g2 = Ok S1 ->
  has_shape C0 (overlap_dim T dim) n0 ->
  has_shape C1 (overlap_dim T dim) n1 ->
  has_shape C2 (overlap_dim T dim) n2 ->
  calculateCoupling3Points comps osm uninit (g0, g1, g2) (C0, C1, C2) d 0 T
  = Raise ZeroDivisionError.
Proof.
  intros Hdim HS0 HS1 H0 H1 H2.
  pose proof (calcOverlapMtx_shape _ _ _ _ _ _ _ _ _ HS0) as HsS0.
  pose proof (calcOverlapMtx_shape _ _ _ _ _ _ _ _ _ HS1) as HsS1.
  set (m := overlap_dim T dim) in *.
  assert (HsT0 : has_shape (np_transpose S0) m m)
    by (destruct HsS0; split; simpl; congruence).
  assert (HsT1 : has_shape (np_transpose S1) m m)
    by (destruct HsS1; split; simpl; congruence).
  unfold calculateCoupling3Points.
  rewrite !map_coordinates_to_numpy, Hdim. simpl.
  rewrite HS0. simpl. rewrite HS1. simpl.
  rewrite (calculate_overlap_project S0 C0 C1 m n0 n1) by assumption. simpl.
  rewrite (calculate_overlap_project S1 C1 C2 m n1 n2) by assumption. simpl.
  rewrite (calculate_overlap_project _ C1 C0 m n1 n0) by assumption. simpl.
  rewrite (calculate_overlap_project _ C2 C1 m n2 n1) by assumption. simpl.
  unfold py_div. simpl.
  destruct (Req_dec_T (4 * 0) 0) as [_|Hnz]; [reflexivity|].
  exfalso. apply Hnz. ring.
Qed.

(** X21. The coupling is inversely proportional to the time step: with
    the step multiplied by [k], neither zero, the estimator raises the
    same exceptions and returns the matrix divided by [k]. *)
Theorem coupling_step_scaling geometries coefficients d dt T k :
  dt <> 0 -> k <> 0 ->
  calculateCoupling3Points comps osm uninit geometries coefficients d
    (k * dt) T
  = np_scale (1 / k)
      <$> calculateCoupling3Points comps osm uninit geometries coefficients
            d dt T.
Proof.
  intros Hdt Hk. destruct geometries as [[g0 g1] g2].
  destruct coefficients as [[C0 C1] C2].
  unfold calculateCoupling3Points. rewrite !map_coordinates_to_numpy.
  destruct (count_cgfs d g0) as [dim|]; [simpl|reflexivity].
  destruct (calcOverlapMtx comps osm uninit T d dim g0 g1) as [S0|];
    [simpl|reflexivity].
  destruct (calcOverlapMtx comps osm uninit T d dim g1 g2) as [S1|];
    [simpl|reflexivity].
  destruct (calculate_overlap S0 C0 C1) as [P0|]; [simpl|reflexivity].
  destruct (calculate_overlap S1 C1 C2) as [P1|]; [simpl|reflexivity].
  destruct (calculate_overlap _ C1 C0) as [Q0|]; [simpl|reflexivity].
  destruct (calculate_overlap _ C2 C1) as [Q1|]; [simpl|reflexivity].
  change (py_div 1 (4 * (k * dt)) ≫= _) with
    (cte ← py_div 1 (4 * (k * dt)); d1 ← np_sub P1 Q1; d0 ← np_sub Q0 P0;
     s ← np_add (np_scale 3 d1) d0; Ok (np_scale cte s)).
  assert (Hkdt : 4 * (k * dt) <> 0) by (intros Hz; nra).
  rewrite !py_div_nonzero by (assumption || lra). simpl.
  destruct (np_sub P1 Q1) as [d1|]; [simpl|reflexivity].
  destruct (np_sub Q0 P0) as [d0|]; [simpl|reflexivity].
  destruct (np_add _ d0) as [x|]; [simpl|reflexivity].
  f_equal. unfold np_scale. simpl.
  apply build_matrix_ext. intros i j Hi Hj.
  rewrite entry_build_matrix by assumption. field. split; assumption.
Qed.

(** X22. Projecting the transposed overlap with the two coefficient
    matrices exchanged gives the transpose of the projection: of the two
    matrices [mtx_sji] and [mtx_sij] the estimator computes, each is the
    transpose of the other. *)
Theorem calculate_overlap_transposed (suv css0 css1 : Matrix R) m n0 n1 :
  has_shape suv m m -> has_shape css0 m n0 -> has_shape css1 m n1 ->
  calculate_overlap (np_transpose suv) css1 css0
  = np_transpose <$> calculate_overlap suv css0 css1.
Proof.
  intros HS H0 H1.
  assert (HT : has_shape (np_transpose suv) m m)
    by (destruct HS; split; simpl; congruence).
  rewrite (calculate_overlap_project _ css1 css0 m n1 n0) by assumption.
  rewrite (calculate_overlap_project suv css0 css1 m n0 n1) by assumption.
  cbn [fmap result_fmap]. f_equal.
  set (lhs := project_spec m (entry (np_transpose suv)) _ _).
  unfold np_transpose. cbn [nrows ncols build_matrix].
  apply build_matrix_ext. intros i j Hi Hj.
  rewrite entry_build_matrix by assumption. unfold lhs.
  rewrite project_spec_np_transpose by assumption.
  apply project_spec_transpose.
Qed.

End EstimatorEdges.

Section Broadcasting.
Local Open Scope R_scope.
Variable comps : string -> nat -> Z.
Variable osm : R -> R -> R -> R -> R -> R -> R -> R -> R.
Variable uninit : nat -> R.

Lemma broadcast_dim_one (n : nat) :
  broadcast_dim 1 n = Ok n /\ broadcast_dim n 1 = Ok n.
Proof.
  unfold broadcast_dim. destruct (Nat.eqb_spec 1 n) as [<-|Hn].
  - by split.
  - destruct (Nat.eqb_spec n 1) as [->|_]; [done|]. by split.
Qed.

(** A row minus a column: every entry of the row against every entry of
    the column. *)
Lemma np_binop_row_column (op : R -> R -> R) (A B : Matrix R) (n : nat) :
  has_shape A 1 n -> has_shape B n 1 ->
  np_binop op A B
  = Ok (build_matrix n n (fun i j => op (entry A 0 j) (entry B i 0))).
Proof.
  intros [HAr HAc] [HBr HBc]. unfold np_binop.
  rewrite HAr, HAc, HBr, HBc.
  destruct (broadcast_dim_one n) as [-> ->]. cbn [mbind result_bind].
  f_equal. apply build_matrix_ext. intros i j Hi Hj.
  unfold bidx. simpl.
  destruct (Nat.eqb_spec n 1) as [->|_]; [|reflexivity].
  by replace i with 0%nat by lia; replace j with 0%nat by lia.
Qed.

(** X23. Coefficient matrices with different numbers of orbitals are not
    always refused: when the middle frame has one orbital and the two
    other frames have [n], the differences of a row and a column are
    broadcast, and the estimator returns the [n × n] matrix of the
    differences between the entries [j] and [i] of the two projected
    rows. *)
Theorem coupling_broadcast_one_orbital
    g0 g1 g2 C0 C1 C2 d dt T dim S0 S1 n :
  count_cgfs d g0 = Ok dim ->
  calcOverlapMtx comps osm uninit T d dim g0 g1 = Ok S0 ->
  calcOverlapMtx comps osm uninit T d dim g1 g2 = Ok S1 ->
  has_shape C0 (overlap_dim T dim) n ->
  has_shape C1 (overlap_dim T dim) 1 ->
  has_shape C2 (overlap_dim T dim) n ->
  dt <> 0 ->
  calculateCoupling3Points comps osm uninit (g0, g1, g2) (C0, C1, C2) d dt T
  = Ok (build_matrix n n (fun i j =>
          let u := project_spec (overlap_dim T dim) (entry S1)
                     (entry C1) (entry C2) 0%nat in
          let w := project_spec (overlap_dim T dim) (mat_T (entry S0))
                     (entry C1) (entry C0) 0%nat in
          (3 * (u j - u i) + (w j - w i)) / (4 * dt))).
Proof.
  intros Hdim HS0 HS1 H0 H1 H2 Hdt.
  pose proof (calcOverlapMtx_shape _ _ _ _ _ _ _ _ _ HS0) as HsS0.
  pose proof (calcOverlapMtx_shape _ _ _ _ _ _ _ _ _ HS1) as HsS1.
  set (m := overlap_dim T dim) in *.
  assert (HsT0 : has_shape (np_transpose S0) m m)
    by (destruct HsS0; split; simpl; congruence).
  assert (HsT1 : has_shape (np_transpose S1) m m)
    by (destruct HsS1; split; simpl; congruence).
  unfold calculateCoupling3Points.
  rewrite !map_coordinates_to_numpy, Hdim. cbn [mbind result_bind].
  rewrite HS0. cbn [mbind result_bind]. rewrite HS1. cbn [mbind result_bind].
  rewrite (calculate_overlap_project S0 C0 C1 m n 1) by assumption.
  cbn [mbind result_bind].
  rewrite (calculate_overlap_project S1 C1 C2 m 1 n) by assumption.
  cbn [mbind result_bind].
  rewrite (calculate_overlap_project _ C1 C0 m 1 n) by assumption.
  cbn [mbind result_bind].
  rewrite (calculate_overlap_project _ C2 C1 m n 1) by assumption.
  cbn [mbind result_bind].
  rewrite py_div_nonzero by (simpl; lra). cbn [mbind result_bind].
  unfold np_sub, np_add.
  rewrite (np_binop_row_column _ _ _ n) by apply build_matrix_shape.
  cbn [mbind result_bind].
  rewrite (np_binop_row_column _ _ _ n) by apply build_matrix_shape.
  cbn [mbind result_bind].
  rewrite (np_binop_same_shape _ _ _ n n) by apply build_matrix_shape.
  cbn [mbind result_bind].
  f_equal. unfold np_scale. cbn [nrows ncols build_matrix].
  apply build_matrix_ext. intros i j Hi Hj.
  rewrite !entry_build_matrix by (assumption || lia).
  rewrite !project_spec_np_transpose by assumption.
  rewrite (project_spec_transpose m (entry S1) (entry C1) (entry C2) i 0).
  rewrite <- (project_spec_transpose m (entry S0) (entry C0) (entry C1) 0 i).
  cbv zeta. simpl. field. assumption.
Qed.

End Broadcasting.

(** ** The points that need a guess *)

Section Guesses.

Lemma prefix_chars (sub s : string) (c : ascii) :
  String.prefix sub s = true ->
  In c (list_ascii_of_string sub) -> In c (list_ascii_of_string s).
Proof.
  revert s. induction sub as [|a sub IH]; intros s Hpre Hc; [destruct Hc|].
  destruct s as [|b s]; [discriminate|]. simpl in Hpre.
  destruct (ascii_dec a b) as [->|]; [|discriminate].
  destruct Hc as [<-|Hc]; [by left|]. right. by apply IH.
Qed.

(** A string that occurs in another has its characters among those of the
    other. *)
Lemma py_in_chars (sub s : string) (c : ascii) :
  py_in sub s = true ->
  In c (list_ascii_of_string sub) -> In c (list_ascii_of_string s).
Proof.
  induction s as [|b s IH]; simpl; intros Hin Hc.
  - rewrite orb_false_r in Hin. by apply (prefix_chars sub "" c).
  - apply orb_true_iff in Hin as [Hpre|Hin].
    + by apply (prefix_chars sub (String b s) c).
    + right. by apply IH.
Qed.

(** X24. A keyword that is not empty and occurs in "all", whatever the
    case of its letters, selects every point: the list returned has one
    entry for each geometry, and its entry [k] is [enumerate_from + k]. *)
Theorem guesses_to_compute_all g enumerate_from len_geometries :
  g <> ""%string -> py_in (py_lower g) "all" = true ->
  exists points,
    guesses_to_compute (Some g) enumerate_from len_geometries = Ok points /\
    length points = Z.to_nat len_geometries /\
    forall k, (k < Z.to_nat len_geometries)%nat ->
              points !! k = Some (enumerate_from + Z.of_nat k)%Z.
Proof.
  intros Hne Hall. unfold guesses_to_compute.
  destruct (py_in (py_lower g) "first") eqn:Hfirst.
  - exfalso. destruct g as [|c g]; [done|].
    pose proof (py_in_chars _ _ (py_lower_ascii c) Hall (or_introl eq_refl))
      as Ha.
    pose proof (py_in_chars _ _ (py_lower_ascii c) Hfirst (or_introl eq_refl))
      as Hf.
    cbn [py_lower list_ascii_of_string In] in Ha, Hf.
    destruct Ha as [Ha|[Ha|[Ha|[]]]]; rewrite <- Ha in Hf;
      destruct Hf as [Hf|[Hf|[Hf|[Hf|[Hf|[]]]]]]; discriminate.
  - rewrite Hall. eexists. split; [reflexivity|]. split.
    + unfold range. by rewrite !length_map, length_seq.
    + intros k Hk. unfold range.
      by rewrite !list_lookup_fmap, lookup_seq_lt.
Qed.

(** X25. A keyword with a character that, once in lower case, is in
    neither "first" nor "all" selects nothing and returns nothing: the
    function raises [UnboundLocalError]. *)
Theorem guesses_to_compute_unknown g c enumerate_from len_geometries :
  In c (list_ascii_of_string (py_lower g)) ->
  ~ In c (list_ascii_of_string "first") ->
  ~ In c (list_ascii_of_string "all") ->
  guesses_to_compute (Some g) enumerate_from len_geometries
  = Raise UnboundLocalError.
Proof.
  intros Hc Hfirst Hall. unfold guesses_to_compute.
  destruct (py_in (py_lower g) "first") eqn:H1.
  { exfalso. apply Hfirst. by apply (py_in_chars (py_lower g) _ c). }
  destruct (py_in (py_lower g) "all") eqn:H2; [|reflexivity].
  exfalso. apply Hall. by apply (py_in_chars (py_lower g) _ c).
Qed.

End Guesses.

(** ** Values that are not finite *)

Section NonFinite.
Variable comps : string -> nat -> Z.
Variable osm
  : xreal -> xreal -> xreal -> xreal -> xreal -> xreal -> xreal -> xreal
    -> xreal.
Variable uninit : nat -> xreal.

Lemma xinf_scaled_not_finite (positive : bool) (r : R) :
  is_finite (xinf_scaled positive r) = false.
Proof. unfold xinf_scaled. by destruct (Rsign r), positive. Qed.

Lemma xmul_not_finite_l (x y : xreal) :
  is_finite x = false -> is_finite (xmul x y) = false.
Proof.
  destruct x, y; simpl; intros Hx; try discriminate; try reflexivity;
    apply xinf_scaled_not_finite.
Qed.

Lemma xmul_not_finite_r (x y : xreal) :
  is_finite y = false -> is_finite (xmul x y) = false.
Proof.
  destruct x, y; simpl; intros Hy; try discriminate; try reflexivity;
    apply xinf_scaled_not_finite.
Qed.

Lemma xadd_not_finite_l (x y : xreal) :
  is_finite x = false -> is_finite (xadd x y) = false.
Proof. destruct x, y; simpl; intros Hx; try discriminate; reflexivity. Qed.

Lemma traverse_Forall {A B} (P : B -> Prop) (f : A -> result B)
    (l : list A) (ys : list B) :
  (forall x y, f x = Ok y -> P y) -> traverse f l = Ok ys -> Forall P ys.
Proof.
  intros Hf. revert ys. induction l as [|x l IH]; simpl; intros ys Hys.
  - inversion Hys. constructor.
  - apply bind_Ok_inv in Hys as (y & Hy & Hys).
    apply bind_Ok_inv in Hys as (ys' & Hys' & Hys).
    inversion Hys; subst. constructor; eauto.
Qed.

Hypothesis osm_not_finite :
  forall p s a b rp l1 l2 o, is_finite (osm p s a b rp l1 l2 o) = false.

Lemma sab_unfolded_not_finite r1 r2 ls1 ls2 c1 c2 e1 e2 v :
  sab_unfolded osm r1 r2 ls1 ls2 c1 c2 e1 e2 = Ok v -> is_finite v = false.
Proof using osm_not_finite.
  unfold sab_unfolded. intros Hv.
  apply bind_Ok_inv in Hv as (cte & _ & Hv). inversion Hv as [Hv'].
  apply xmul_not_finite_r. simpl. apply xmul_not_finite_l, osm_not_finite.
Qed.

Lemma apply_contraction_not_finite xyz_0 xyz_1 li lj ps_i ps_j v :
  apply_contraction comps osm xyz_0 xyz_1 li lj ps_i ps_j = Ok v ->
  is_finite v = false.
Proof using osm_not_finite.
  unfold apply_contraction. destruct ps_i as [csi esi], ps_j as [csj esj].
  intros Hv. apply bind_Ok_inv in Hv as (mtx & _ & Hv).
  apply bind_Ok_inv in Hv as (vals & Hvals & Hv). inversion Hv as [Hv'].
  unfold apply_along_columns in Hvals.
  destruct (Nat.eqb_spec (ncols mtx) 0) as [|Hnz]; [discriminate|].
  pose proof (traverse_length _ _ _ Hvals) as Hlen.
  rewrite length_seq in Hlen.
  assert (Hall : Forall (fun w => is_finite w = false) vals).
  { eapply traverse_Forall; [|exact Hvals]. intros k w Hw. simpl in Hw.
    destruct (map _ _) as [|c1 [|c2 [|e1 [|e2 [|? ?]]]]]; try discriminate.
    eapply sab_unfolded_not_finite, Hw. }
  destruct Hall as [|w ws Hw _]; [simpl in Hlen; lia|].
  simpl. by apply xadd_not_finite_l.
Qed.

(** X26. Over the floating-point values, when the primitive integral
    returns a value that is not finite on every call, every entry of the
    matrix the builder returns without transformation, for a second
    geometry with as many basis functions as the dimension, is not
    finite: the builder puts no other value in its place. *)
Theorem calcOverlapMtx_not_finite d dim mol0 mol1 S i j :
  calcOverlapMtx comps osm uninit None d dim mol0 mol1 = Ok S ->
  blocks_total d mol1 = Z.of_nat dim -> (i < dim)%nat -> (j < dim)%nat ->
  is_finite (entry S i j) = false.
Proof using osm_not_finite.
  intros HS Hdim Hi Hj.
  destruct (builder_row comps osm uninit d dim mol0 mol1 S i HS Hdim Hi)
    as (x0 & gi & blocks & Hlk & Hblocks & Hrow).
  assert (Hall : Forall (fun w => is_finite w = false) (concat blocks)).
  { apply Forall_concat.
    eapply traverse_Forall; [|exact Hblocks]. intros a blk Hblk. simpl in Hblk.
    apply bind_Ok_inv in Hblk as (cgfs & _ & Hblk).
    unfold calc_overlap_atom in Hblk.
    eapply traverse_Forall; [|exact Hblk]. intros gj w Hw. simpl in Hw.
    eapply apply_contraction_not_finite, Hw. }
  assert (Hlen : length (concat blocks) = dim).
  { destruct (calcOverlapMtx_shape _ _ _ _ _ _ _ _ _ HS) as [_ Hc].
    unfold calcOverlapMtx in HS.
    apply bind_Ok_inv in HS as (xss & _ & HS).
    apply bind_Ok_inv in HS as (suv & Hsuv & HS).
    inversion HS; subst S. apply np_stack_Ok in Hsuv as (Hrows & _ & Hl).
    rewrite Hrows in Hrow. rewrite Forall_forall in Hl.
    rewrite (Hl (concat blocks)); [exact Hc|].
    eapply list_elem_of_lookup_2, Hrow. }
  destruct (lookup_lt_is_Some_2 (concat blocks) j) as [w Hw]; [lia|].
  unfold entry. rewrite (nth_lookup_Some _ _ _ _ Hrow).
  rewrite (nth_lookup_Some _ _ _ _ Hw).
  rewrite Forall_forall in Hall. apply Hall.
  eapply list_elem_of_lookup_2, Hw.
Qed.

End NonFinite.

(** ** The further properties on the systems above *)

Section MoreWitnesses.
Local Open Scope R_scope.



End MoreWitnesses.

Section FurtherWitnesses.
Local Open Scope R_scope.

Lemma hc_known : Forall (fun a => is_Some (hc_basis !! symbol a)) hc_atoms.
Proof.
  repeat constructor.
  - exists [h_function]. reflexivity.
  - exists [c_function_s; c_function_px]. reflexivity.
Qed.

Lemma lookup_cgf_owner_position_witness :
  exists pre a post,
    h_atom :: [c_atom] = pre ++ a :: post /\
    (blocks_total hc_basis pre <= 1
       < blocks_total hc_basis pre + block_size hc_basis a)%Z /\
    match [h_function] !! Z.to_nat (1 - blocks_total hc_basis pre) with
    | Some g => lookup_cgf (h_atom :: [c_atom]) hc_basis 1 = Ok (xyz a, g)
    | None => lookup_cgf (h_atom :: [c_atom]) hc_basis 1 = Raise IndexError
    end.
Proof.
  apply (lookup_cgf_owner_position hc_basis h_atom [c_atom] [h_function] 1).
  - exact hc_known.
  - reflexivity.
  - discriminate.
  - vm_compute. split; [discriminate | reflexivity].
Defined.

Lemma lookup_cgf_beyond_dimension_witness :
  lookup_cgf hc_atoms hc_basis 3 = Raise UnboundLocalError.
Proof.
  apply (lookup_cgf_beyond_dimension hc_basis hc_atoms 3).
  - exact hc_known.
  - right. exists h_atom, [c_atom]. split; [reflexivity|]. reflexivity.
  - reflexivity.
  - vm_compute. discriminate.
Defined.

Lemma lookup_cgf_unknown_symbol_witness :
  lookup_cgf ([h_atom] ++ xe_atom :: [c_atom]) hc_basis 1 = Raise KeyError.
Proof.
  apply (lookup_cgf_unknown_symbol hc_basis [h_atom] xe_atom [c_atom] 1).
  - repeat constructor. exists [h_function]. reflexivity.
  - right. exists h_atom, []. split; [reflexivity|]. reflexivity.
  - reflexivity.
  - vm_compute. discriminate.
  - vm_compute. discriminate.
Defined.

Lemma lookup_cgf_first_block_empty_witness :
  lookup_cgf (h_atom :: [h_atom]) empty_h_basis 2 = Raise IndexError.
Proof.
  apply (lookup_cgf_first_block_empty empty_h_basis h_atom [h_atom] 2).
  - reflexivity.
  - vm_compute. discriminate.
Defined.

Lemma apply_contraction_ragged_witness :
  apply_contraction s_components unit_integral (V3 0 0 0) (V3 1 0 0) "S" "S"
    ([1], [1]) ([1; 1], [1; 2])
  = Raise ValueError.
Proof.
  apply (apply_contraction_ragged s_components unit_integral
           (V3 0 0 0) (V3 1 0 0) "S" "S" [1] [1] [1; 1] [1; 2]).
  left. simpl. lia.
Defined.

Lemma unit_integral_exchange :
  forall p s a b rp l1 l2 o : R,
    unit_integral p s a b rp l1 l2 o = unit_integral p s b a rp l2 l1 o.
Proof. reflexivity. Qed.

Lemma apply_contraction_exchange_witness :
  apply_contraction s_components unit_integral (V3 1 0 0) (V3 0 0 0) "Px" "S"
    ([3; 4], [1; 1]) ([1; 2], [1; 2])
  = apply_contraction s_components unit_integral (V3 0 0 0) (V3 1 0 0)
      "S" "Px" ([1; 2], [1; 2]) ([3; 4], [1; 1]).
Proof.
  apply (apply_contraction_exchange s_components unit_integral
           (V3 0 0 0) (V3 1 0 0) "S" "Px" ([1; 2], [1; 2]) ([3; 4], [1; 1])).
  exact unit_integral_exchange.
Defined.

Lemma hc_blocks : blocks_total hc_basis hc_atoms = Z.of_nat 3.
Proof. reflexivity. Qed.

Lemma hc_row_built (uninit : nat -> R) :
  calc_overlap_row s_components centre_integral uninit hc_basis hc_atoms 3
    (V3 0 0 0) h_function
  = Ok hc_row.
Proof.
  assert (HdH : dict_get hc_basis "H" = Ok [h_function]) by reflexivity.
  assert (HdC : dict_get hc_basis "C" = Ok [c_function_s; c_function_px])
    by reflexivity.
  revert HdH HdC. generalize hc_basis. intros d HdH HdC.
  unfold calc_overlap_row, hc_atoms, h_function, c_function_s,
    c_function_px in *.
  simpl. rewrite HdH. simpl.
  unfold apply_contraction, apply_along_columns, entry.
  cbn -[sab_unfolded]. rewrite !centre_sab by lra. simpl.
  rewrite HdC. simpl.
  unfold apply_contraction, apply_along_columns, entry.
  cbn -[sab_unfolded]. rewrite !centre_sab by lra. simpl.
  unfold hc_row. repeat (f_equal; try lra).
Qed.

Lemma calc_overlap_row_blocks_witness :
  length hc_row = 3%nat /\
  calc_overlap_row s_components centre_integral other_cells hc_basis hc_atoms
    3 (V3 0 0 0) h_function = Ok hc_row /\
  exists blocks,
    traverse (fun a => cgfs ← dict_get hc_basis (symbol a);
                       calc_overlap_atom s_components centre_integral
                         (V3 0 0 0) h_function (xyz a) cgfs)
             hc_atoms = Ok blocks /\
    hc_row = concat blocks.
Proof.
  apply (calc_overlap_row_blocks s_components centre_integral zero_cells
           other_cells hc_basis hc_atoms 3 (V3 0 0 0) h_function hc_row).
  - exact hc_blocks.
  - exact (hc_row_built zero_cells).
Defined.


Lemma mv_blocks : blocks_total cd_basis mv_frame_1 = Z.of_nat 2.
Proof. reflexivity. Qed.


Lemma calcOverlapMtx_rows_witness :
  exists xyz_0 cgf_i blocks,
    lookup_cgf mv_frame_0 cd_basis (Z.of_nat 1) = Ok (xyz_0, cgf_i) /\
    traverse (fun a => cgfs ← dict_get cd_basis (symbol a);
                       calc_overlap_atom s_components centre_integral
                         xyz_0 cgf_i (xyz a) cgfs)
             mv_frame_1 = Ok blocks /\
    rows mv_overlap_0 !! 1%nat = Some (concat blocks).
Proof.
  apply (calcOverlapMtx_rows s_components centre_integral zero_cells cd_basis
           2 mv_frame_0 mv_frame_1 mv_overlap_0 1).
  - exact (mv_overlap_0_built zero_cells).
  - exact mv_blocks.
  - lia.
Defined.

Lemma calcOverlapMtx_transform_shape_witness :
  calcOverlapMtx s_components unit_integral zero_cells (Some two_orbitals)
    cd_basis 1 [cd_atom] [cd_atom]
  = Raise ValueError.
Proof.
  apply (calcOverlapMtx_transform_shape s_components unit_integral zero_cells
           two_orbitals cd_basis 1 [cd_atom] [cd_atom] cd_overlap).
  - exact cd_overlap_built.
  - simpl. lia.
Defined.

End FurtherWitnesses.

Section LastWitnesses.
Local Open Scope R_scope.

Lemma cd_pair_contractible : contractible 1 cd_pair_functions.
Proof. repeat constructor; simpl; lra. Qed.

Lemma cd_pair_one_element : Forall (fun a => symbol a = "Cd"%string) cd_pair.
Proof. repeat constructor. Qed.

Lemma calcOverlapMtx_entry_one_element_witness :
  exists S,
    calcOverlapMtx s_components centre_integral zero_cells None cd_pair_basis
      (length cd_pair * length cd_pair_functions) cd_pair cd_pair = Ok S /\
    exists v,
      apply_contraction s_components centre_integral (V3 1 0 0) (V3 0 0 0)
        "Px" "S" ([1], [3]) ([1], [2]) = Ok v /\
      entry S (1 * length cd_pair_functions + 1)
        (0 * length cd_pair_functions + 0) = v.
Proof.
  destruct (builder_returns_one_element s_components centre_integral
              zero_cells cd_pair_basis "Cd" cd_pair_functions 1 cd_pair
              cd_pair)
    as [S HS].
  - exact cd_pair_contractible.
  - lia.
  - discriminate.
  - discriminate.
  - exact cd_pair_one_element.
  - exact cd_pair_one_element.
  - reflexivity.
  - reflexivity.
  - exists S. split; [exact HS|].
    apply (calcOverlapMtx_entry_one_element s_components centre_integral
             zero_cells cd_pair_basis
             (length cd_pair * length cd_pair_functions) cd_pair cd_pair
             "Cd" cd_pair_functions S 1 0 1 0
             (mkAtom "Cd" (V3 1 0 0)) (mkAtom "Cd" (V3 0 0 0))
             (mkCGF ([1], [3]) "Px") (mkCGF ([1], [2]) "S")).
    + exact HS.
    + exact cd_pair_one_element.
    + exact cd_pair_one_element.
    + reflexivity.
    + reflexivity.
    + reflexivity.
    + reflexivity.
    + reflexivity.
    + reflexivity.
    + simpl. lia.
Defined.


Lemma coupling_static_one_element_witness :
  calculateCoupling3Points s_components unit_integral zero_cells
    (cd_pair, cd_pair, cd_pair) (four_by_two, four_by_two, four_by_two)
    cd_pair_basis 1 None
  = Ok (zeros 2 2).
Proof.
  apply (coupling_static_one_element s_components unit_integral zero_cells
           cd_pair_basis cd_pair "Cd" cd_pair_functions 1 four_by_two 2 1).
  - exact unit_integral_exchange.
  - exact cd_pair_contractible.
  - lia.
  - discriminate.
  - discriminate.
  - exact cd_pair_one_element.
  - reflexivity.
  - split; reflexivity.
  - lra.
Defined.

Lemma calcOverlapMtx_returns_one_element_witness :
  exists S,
    calcOverlapMtx s_components unit_integral zero_cells None cd_pair_basis
      (length cd_pair * length cd_pair_functions) cd_pair cd_pair = Ok S /\
    has_shape S (length cd_pair * length cd_pair_functions)
      (length cd_pair * length cd_pair_functions).
Proof.
  apply (calcOverlapMtx_returns_one_element s_components unit_integral
           zero_cells cd_pair_basis "Cd" cd_pair_functions 1 cd_pair cd_pair).
  - exact cd_pair_contractible.
  - lia.
  - discriminate.
  - discriminate.
  - exact cd_pair_one_element.
  - exact cd_pair_one_element.
  - reflexivity.
  - reflexivity.
Defined.

Lemma coupling_unknown_symbol_witness :
  calculateCoupling3Points s_components unit_integral zero_cells
    ([h_atom] ++ xe_atom :: [c_atom], hc_atoms, hc_atoms) cd_orbitals
    hc_basis 1 None
  = Raise KeyError.
Proof.
  apply (coupling_unknown_symbol s_components unit_integral zero_cells
           [h_atom] xe_atom [c_atom] hc_atoms hc_atoms cd_orbitals hc_basis
           1 None).
  reflexivity.
Defined.

Lemma coupling_no_basis_function_witness :
  calculateCoupling3Points s_components unit_integral zero_cells
    ([], [cd_atom], [cd_atom]) cd_orbitals cd_basis 1 None
  = Raise ValueError.
Proof.
  apply (coupling_no_basis_function s_components unit_integral zero_cells
           [] [cd_atom] [cd_atom] cd_orbitals cd_basis 1 None).
  reflexivity.
Defined.

Lemma coupling_coefficient_rows_witness :
  calculateCoupling3Points s_components unit_integral zero_cells
    ([cd_atom], [cd_atom], [cd_atom]) (two_orbitals, cd_transform, two_orbitals)
    cd_basis 1 None
  = Raise ValueError.
Proof.
  apply (coupling_coefficient_rows s_components unit_integral zero_cells
           [cd_atom] [cd_atom] [cd_atom] two_orbitals cd_transform
           two_orbitals cd_basis 1 None 1 cd_overlap cd_overlap).
  - exact cd_count.
  - exact cd_overlap_built.
  - exact cd_overlap_built.
  - simpl. lia.
Defined.

Lemma coupling_zero_step_raises_witness :
  calculateCoupling3Points s_components unit_integral zero_cells
    ([cd_atom], [cd_atom], [cd_atom])
    (two_orbitals, two_orbitals, two_orbitals) cd_basis 0 None
  = Raise ZeroDivisionError.
Proof.
  apply (coupling_zero_step_raises s_components unit_integral zero_cells
           [cd_atom] [cd_atom] [cd_atom] two_orbitals two_orbitals
           two_orbitals cd_basis None 1 cd_overlap cd_overlap 2 2 2).
  - exact cd_count.
  - exact cd_overlap_built.
  - exact cd_overlap_built.
  - split; reflexivity.
  - split; reflexivity.
  - split; reflexivity.
Defined.

Lemma coupling_step_scaling_witness :
  calculateCoupling3Points s_components centre_integral zero_cells
    (mv_frame_0, mv_frame_1, mv_frame_2) (mv_css0, mv_css1, mv_css2)
    cd_basis (2 * 1) None
  = np_scale (1 / 2) <$> Ok (mkMatrix 2 2 [[0; -15]; [15; 0]]).
Proof.
  change (mkMatrix 2 2 [[0; -15]; [15; 0]]) with mv_coupling.
  rewrite <- mv_coupling_built.
  apply (coupling_step_scaling s_components centre_integral zero_cells
           (mv_frame_0, mv_frame_1, mv_frame_2) (mv_css0, mv_css1, mv_css2)
           cd_basis 1 None 2); lra.
Defined.

Lemma calculate_overlap_transposed_witness :
  calculate_overlap (np_transpose mv_overlap_0) cd_transform mv_css1
  = np_transpose <$> calculate_overlap mv_overlap_0 mv_css1 cd_transform.
Proof.
  apply (calculate_overlap_transposed mv_overlap_0 mv_css1 cd_transform
           2 2 1); split; reflexivity.
Defined.

Lemma coupling_broadcast_one_orbital_witness :
  calculateCoupling3Points s_components unit_integral zero_cells
    ([cd_atom], [cd_atom], [cd_atom]) (two_orbitals, one_orbital, two_orbitals)
    cd_basis 1 None
  = Ok (build_matrix 2 2 (fun i j =>
          (3 * (project_spec 1 (entry cd_overlap) (entry one_orbital)
                  (entry two_orbitals) 0%nat j
                - project_spec 1 (entry cd_overlap) (entry one_orbital)
                    (entry two_orbitals) 0%nat i)
           + (project_spec 1 (mat_T (entry cd_overlap)) (entry one_orbital)
                (entry two_orbitals) 0%nat j
              - project_spec 1 (mat_T (entry cd_overlap)) (entry one_orbital)
                  (entry two_orbitals) 0%nat i)) / (4 * 1))).
Proof.
  apply (coupling_broadcast_one_orbital s_components unit_integral zero_cells
           [cd_atom] [cd_atom] [cd_atom] two_orbitals one_orbital two_orbitals
           cd_basis 1 None 1 cd_overlap cd_overlap 2).
  - exact cd_count.
  - exact cd_overlap_built.
  - exact cd_overlap_built.
  - split; reflexivity.
  - split; reflexivity.
  - split; reflexivity.
  - lra.
Defined.

Lemma guesses_to_compute_all_witness :
  exists points,
    guesses_to_compute (Some "ALL"%string) 5 3 = Ok points /\
    length points = Z.to_nat 3 /\
    forall k, (k < Z.to_nat 3)%nat ->
              points !! k = Some (5 + Z.of_nat k)%Z.
Proof.
  apply (guesses_to_compute_all "ALL" 5 3).
  - discriminate.
  - reflexivity.
Defined.

Lemma guesses_to_compute_unknown_witness :
  guesses_to_compute (Some "none"%string) 0 3 = Raise UnboundLocalError.
Proof.
  apply (guesses_to_compute_unknown "none" "n"%char 0 3).
  - left. reflexivity.
  - intros [H|[H|[H|[H|[H|[]]]]]]; discriminate.
  - intros [H|[H|[H|[]]]]; discriminate.
Defined.

Lemma nan_overlap_built :
  calcOverlapMtx s_components nan_integral zero_cells_x None cd_basis_x 1
    [cd_atom_x] [cd_atom_x] = Ok nan_overlap.
Proof.
  pose proof (dict_get_singleton "Cd"
                [mkCGF ([Fin 1], [Fin 1]) "S" : CGF xreal]) as Hd.
  unfold cd_basis_x, cd_atom_x. revert Hd.
  generalize ({["Cd" := [mkCGF ([Fin 1], [Fin 1]) "S"]]}
              : gmap string (list (CGF xreal))).
  intros d Hd.
  assert (Hsab : forall ls,
             sab_unfolded nan_integral (V3 (Fin 0) (Fin 0) (Fin 0))
               (V3 (Fin 0) (Fin 0) (Fin 0)) ls ls (Fin 1) (Fin 1) (Fin 1) (Fin 1)
             = Ok NaN).
  { intros ls. unfold sab_unfolded. simpl.
    destruct (Req_dec_T (1 + 1) 0) as [Hz|_]; [exfalso; lra|]. simpl.
    destruct (Rlt_dec (PI / (1 + 1)) 0) as [Hneg|_]; [|reflexivity].
    exfalso. pose proof PI_RGT_0.
    assert (0 < PI / (1 + 1)) by (apply Rdiv_lt_0_compat; lra). lra. }
  unfold calcOverlapMtx, apply_nested, lookup_cgf, calc_overlap_row. simpl.
  rewrite Hd. simpl.
  unfold apply_contraction, apply_along_columns, entry.
  cbn -[sab_unfolded]. rewrite Hsab. reflexivity.
Qed.

Lemma calcOverlapMtx_not_finite_witness :
  is_finite (entry nan_overlap 0 0) = false.
Proof.
  apply (calcOverlapMtx_not_finite s_components nan_integral zero_cells_x
           (fun _ _ _ _ _ _ _ _ => eq_refl) cd_basis_x 1 [cd_atom_x]
           [cd_atom_x] nan_overlap 0 0).
  - exact nan_overlap_built.
  - reflexivity.
  - lia.
  - lia.
Defined.

Lemma sab_unfolded_domain_witness :
  (sab_unfolded unit_integral (V3 0 0 0) (V3 1 0 0)
     (orb_components s_components "S") (orb_components s_components "Px")
     1 1 1 (-3) = Raise ValueError
   <-> 1 + -3 < 0) /\
  (is_ok (sab_unfolded unit_integral (V3 0 0 0) (V3 1 0 0)
            (orb_components s_components "S")
            (orb_components s_components "Px") 1 1 1 (-3)) = true
   <-> 0 < 1 + -3).
Proof.
  apply (sab_unfolded_domain unit_integral (V3 0 0 0) (V3 1 0 0)
           (orb_components s_components "S")
           (orb_components s_components "Px") 1 1 1 (-3)).
  lra.
Defined.

End LastWitnesses.
